(** * seq2seq.dataset.Dataset: a shallow embedding and its properties

    The development follows [seq2seq/dataset/dataset.py].  The module is
    Python 2 code ([zip( *pairs)[0]] indexes the list that [zip] returns,
    [range] builds a list), and is modelled with that semantics.

    Layout:
    - [Py]: the fragments of Python the class relies on (exceptions,
      indexing, [zip( *pairs)], [range], slices);
    - the collaborators that live outside [dataset.py]: the [Vocabulary]
      class, the [utils] readers and the [random] module, as interfaces;
    - the object store and the monad the methods run in;
    - the methods of [Dataset], in source order;
    - an instance of the collaborators, used to run the methods;
    - the theorems. *)

From Stdlib Require Import ZArith List Permutation Lia.
From stdpp Require Import base tactics option list strings.

Open Scope Z_scope.

(** ** Python values and exceptions *)

Definition token := string.
Definition sequence := list token.

(** An encoded sequence: what [indices_from_sequence] returns. *)
Definition ids := list Z.

(** Object references (addresses in the store). *)
Abbreviation loc := nat.

(** A value handed over as [src_vocab] / [tgt_vocab].  [_init_vocab]
    inspects it with [is None] and [isinstance]; every value that is
    neither [None], a [Vocabulary] nor a [str] is kept as [VOther] with its
    printed form (which is all the error message uses). *)
Inductive vocab_arg :=
| VNone
| VInstance (r : loc)
| VStr (path : string)
| VOther (repr : string).

(** The exceptions the module raises or lets through.  [AttributeError]
    carries the printed form of the offending value (or the name of the
    attribute looked up on [None]); [ConfigurationError] is what the
    [Vocabulary] constructor raises and [IOError] what the file readers
    raise.  [DanglingReference] is not a Python exception: it marks the use
    of a reference that the store does not hold, which no Python program
    can reach. *)
Inductive exn :=
| IndexError
| TypeError
| ValueError
| StopIteration
| AttributeError (what : string)
| OverflowError (batch_size data_size : Z)
| ConfigurationError (max_size : Z)
| IOError (path : string)
| DanglingReference (r : loc).

Inductive result (A : Type) :=
| OK (a : A)
| Raise (e : exn).
Arguments OK {A} a.
Arguments Raise {A} e.

Module Py.

(** [l[i]] for a non-negative constant index. *)
Definition index {A} (l : list A) (i : nat) : result A :=
  match l !! i with
  | Some a => OK a
  | None => Raise IndexError
  end.

(** [zip( *pairs)] on a list of 2-tuples: the empty list when there is
    no pair, otherwise the tuple of first components followed by the
    tuple of second components. *)
Definition zip_star {A} (pairs : list (A * A)) : list (list A) :=
  match pairs with
  | [] => []
  | _ => [map fst pairs; map snd pairs]
  end.

(** The elements of [range(i, stop, step)] for a positive [step]; at most
    [fuel] of them. *)
Fixpoint range_up (fuel : nat) (i stop step : Z) : list Z :=
  match fuel with
  | O => []
  | S fuel' =>
      if Z.ltb i stop then i :: range_up fuel' (i + step) stop step else []
  end.

Fixpoint range_down (fuel : nat) (i stop step : Z) : list Z :=
  match fuel with
  | O => []
  | S fuel' =>
      if Z.ltb stop i then i :: range_down fuel' (i + step) stop step else []
  end.

(** [range(start, stop, step)]: a list in Python 2.  A zero step is a
    [ValueError].  [stop - start] values at most are produced, so that
    many units of fuel are enough. *)
Definition range (start stop step : Z) : result (list Z) :=
  if Z.eqb step 0 then Raise ValueError
  else if Z.ltb 0 step
       then OK (range_up (Z.to_nat (stop - start)) start stop step)
       else OK (range_down (Z.to_nat (start - stop)) start stop step).

(** Slice bounds are clamped to [0, len], negative ones counted from
    the end. *)
Definition clamp (len i : Z) : Z :=
  let i' := if Z.ltb i 0 then i + len else i in
  Z.max 0 (Z.min len i').

(** [l[lo:hi]] *)
Definition slice {A} (l : list A) (lo hi : Z) : list A :=
  let len := Z.of_nat (length l) in
  let lo' := clamp len lo in
  let hi' := clamp len hi in
  take (Z.to_nat (hi' - lo')) (drop (Z.to_nat lo') l).

Definition len {A} (l : list A) : Z := Z.of_nat (length l).

End Py.

(** ** Collaborators outside [dataset.py] *)

(** The [Vocabulary] class ([seq2seq.dataset.Vocabulary]).  [V] is the
    state of one vocabulary object.  The constructor may refuse its
    argument; the other methods used by [Dataset] update or read the
    object's state. *)
Class VocabularyAPI (V : Type) := {
  Vocabulary : Z → option V;
  add_token : token → V → V;
  add_sequence : sequence → V → V;
  trim : V → V;
  indices_from_sequence : V → sequence → ids;
}.

(** [utils.read_vocabulary(path, max_num_vocab)]: the tokens listed in a
    file, or a failure to read it.  [utils.prepare_data(path, ...)] and
    [utils.prepare_data_from_list(src, tgt, ...)]: the length-filtered
    pairs. *)
Class UtilsAPI := {
  read_vocabulary : string → Z → option (list token);
  prepare_data : string → Z → Z → option (list (sequence * sequence));
  prepare_data_from_list :
    list sequence → list sequence → Z → Z → list (sequence * sequence);
}.

(** The module-level generator of [random].  [seed_rng n] is the state
    after [random.seed(n)]; [randbelow g n] is one draw
    [int(random() * n)], which lies below [n] since [random()] lies in
    [0, 1). *)
Class RandomAPI (G : Type) := {
  seed_rng : Z → G;
  randbelow : G → nat → nat * G;
  randbelow_lt : ∀ g n, (0 < n)%nat → (fst (randbelow g n) < n)%nat;
}.

(** ** The store *)

(** Calls made to the vocabulary objects and to [utils], in the order the
    program makes them. *)
Inductive event :=
| ENew (max_size : Z) (r : loc)
| EAddSequence (r : loc) (s : sequence)
| EAddToken (r : loc) (t : token)
| ETrim (r : loc)
| EIndices (r : loc) (s : sequence)
| EReadVocabulary (path : string) (max_size : Z).

(** The attributes of the [Dataset] object ([self]). *)
Record Dataset := mkDataset {
  src_max_len : Z;
  tgt_max_len : Z;
  input_vocab : option loc;
  output_vocab : option loc;
  data : option loc;
}.

Record world (V G : Type) := mkWorld {
  self : Dataset;
  vocabs : list V;
  lists : list (list (ids * ids));
  rng : G;
  log : list event;
}.
Arguments mkWorld {V G}.
Arguments self {V G}.
Arguments vocabs {V G}.
Arguments lists {V G}.
Arguments rng {V G}.
Arguments log {V G}.

(** ** The monad of the methods

    A method is a function from the store to an outcome and the store it
    leaves.  An exception keeps every mutation made before it was
    raised. *)

Definition M (V G A : Type) : Type := world V G → result A * world V G.

Definition ret {V G A} (a : A) : M V G A := λ w, (OK a, w).

Definition bind {V G A B} (m : M V G A) (f : A → M V G B) : M V G B :=
  λ w, match m w with
       | (OK a, w') => f a w'
       | (Raise e, w') => (Raise e, w')
       end.

Definition raise {V G A} (e : exn) : M V G A := λ w, (Raise e, w).

Definition lift {V G A} (r : result A) : M V G A := λ w, (r, w).

Definition gets {V G A} (f : world V G → A) : M V G A := λ w, (OK (f w), w).

Definition modify {V G} (f : world V G → world V G) : M V G unit :=
  λ w, (OK tt, f w).

Notation "'do' x <- c ; k" := (bind c (λ x, k))
  (at level 10, x name, c at level 100, k at level 200).
Notation "'do_' c ; k" := (bind c (λ _, k))
  (at level 10, c at level 100, k at level 200).

(** [for x in l: body(x)] *)
Fixpoint for_each {V G A} (l : list A) (body : A → M V G unit) : M V G unit :=
  match l with
  | [] => ret tt
  | x :: l' => do_ body x; for_each l' body
  end.

(** Field updates of the store. *)
Definition set_self {V G} (f : Dataset → Dataset) (w : world V G) : world V G :=
  mkWorld (f (self w)) (vocabs w) (lists w) (rng w) (log w).
Definition set_vocabs {V G} (f : list V → list V) (w : world V G) : world V G :=
  mkWorld (self w) (f (vocabs w)) (lists w) (rng w) (log w).
Definition set_lists {V G} (f : list (list (ids * ids)) → list (list (ids * ids)))
    (w : world V G) : world V G :=
  mkWorld (self w) (vocabs w) (f (lists w)) (rng w) (log w).
Definition set_rng {V G} (f : G → G) (w : world V G) : world V G :=
  mkWorld (self w) (vocabs w) (lists w) (f (rng w)) (log w).
Definition emit {V G} (e : event) (w : world V G) : world V G :=
  mkWorld (self w) (vocabs w) (lists w) (rng w) (log w ++ [e]).

Definition with_input_vocab (v : option loc) (d : Dataset) : Dataset :=
  mkDataset (src_max_len d) (tgt_max_len d) v (output_vocab d) (data d).
Definition with_output_vocab (v : option loc) (d : Dataset) : Dataset :=
  mkDataset (src_max_len d) (tgt_max_len d) (input_vocab d) v (data d).
Definition with_data (l : option loc) (d : Dataset) : Dataset :=
  mkDataset (src_max_len d) (tgt_max_len d) (input_vocab d) (output_vocab d) l.

(** ** The methods of [Dataset] *)

Section Methods.
Context {V G : Type} `{!VocabularyAPI V} `{!UtilsAPI} `{!RandomAPI G}.

Local Abbreviation M := (M V G).

(** *** Calls on the collaborators *)

(** [Vocabulary(max_size)]: a new object at the next free address. *)
Definition new_vocabulary (max_size : Z) : M loc :=
  λ w, match Vocabulary max_size with
       | None => (Raise (ConfigurationError max_size), w)
       | Some v =>
           let r := length (vocabs w) in
           (OK r, emit (ENew max_size r) (set_vocabs (λ vs, vs ++ [v]) w))
       end.

(** A method of the vocabulary object [r] that updates it. *)
Definition update_vocab (r : loc) (f : V → V) (e : event) : M unit :=
  λ w, match vocabs w !! r with
       | None => (Raise (DanglingReference r), w)
       | Some v => (OK tt, emit e (set_vocabs (λ vs, <[r := f v]> vs) w))
       end.

Definition call_add_sequence (r : loc) (s : sequence) : M unit :=
  update_vocab r (add_sequence s) (EAddSequence r s).

Definition call_add_token (r : loc) (t : token) : M unit :=
  update_vocab r (add_token t) (EAddToken r t).

Definition call_trim (r : loc) : M unit :=
  update_vocab r trim (ETrim r).

Definition call_indices_from_sequence (r : loc) (s : sequence) : M ids :=
  λ w, match vocabs w !! r with
       | None => (Raise (DanglingReference r), w)
       | Some v => (OK (indices_from_sequence v s), emit (EIndices r s) w)
       end.

Definition call_read_vocabulary (path : string) (max_size : Z)
  : M (list token) :=
  λ w, match read_vocabulary path max_size with
       | None => (Raise (IOError path), emit (EReadVocabulary path max_size) w)
       | Some toks => (OK toks, emit (EReadVocabulary path max_size) w)
       end.

(** *** List objects *)

(** [[]]: a new, empty list object. *)
Definition new_list : M loc :=
  λ w, (OK (length (lists w)), set_lists (λ ls, ls ++ [[]]) w).

Definition read_list (r : loc) : M (list (ids * ids)) :=
  λ w, match lists w !! r with
       | None => (Raise (DanglingReference r), w)
       | Some l => (OK l, w)
       end.

Definition write_list (r : loc) (l : list (ids * ids)) : M unit :=
  modify (set_lists (λ ls, <[r := l]> ls)).

(** [x.append(item)] *)
Definition list_append (r : loc) (item : ids * ids) : M unit :=
  do l <- read_list r;
  write_list r (l ++ [item]).

(** *** Attributes of [self] *)

(** [self.input_vocab.m], [self.output_vocab.m], [self.data.m]: the
    object an attribute refers to; looking a method up on [None] is an
    [AttributeError]. *)
Definition attr (get : Dataset → option loc) (name : string) : M loc :=
  λ w, match get (self w) with
       | None => (Raise (AttributeError name), w)
       | Some r => (OK r, w)
       end.

(** The list [self.data] is read from, for [len(self.data)],
    [self.data[i:j]] and [random.shuffle(self.data)]: each of them is a
    [TypeError] while [self.data] is [None]. *)
Definition data_ref : M loc :=
  λ w, match data (self w) with
       | None => (Raise TypeError, w)
       | Some r => (OK r, w)
       end.

Definition len_data : M Z :=
  do r <- data_ref;
  do l <- read_list r;
  ret (Py.len l).

(** *** [Dataset.__init__] *)
Definition __init__ (src_max_len tgt_max_len : Z) : M unit :=
  modify (set_self (λ _, mkDataset src_max_len tgt_max_len None None None)).

(** *** [Dataset._init_vocab] *)
Definition _init_vocab (sequences : list sequence) (max_num_vocab : Z)
    (vocab : vocab_arg) : M loc :=
  do resp_vocab <- new_vocabulary max_num_vocab;
  match vocab with
  | VNone =>
      do_ for_each sequences (λ sequence,
            call_add_sequence resp_vocab sequence);
      do_ call_trim resp_vocab;
      ret resp_vocab
  | VInstance vocab => ret vocab
  | VStr vocab =>
      do toks <- call_read_vocabulary vocab max_num_vocab;
      do_ for_each toks (λ tok, call_add_token resp_vocab tok);
      ret resp_vocab
  | VOther repr => raise (AttributeError repr)
  end.

(** *** [Dataset._encode] *)

(** The body of the loop [for pair in pairs]. *)
Definition encode_body (pair : sequence * sequence) : M unit :=
  do iv <- attr input_vocab "indices_from_sequence";
  do src <- call_indices_from_sequence iv (fst pair);
  do ov <- attr output_vocab "indices_from_sequence";
  do dst <- call_indices_from_sequence ov (snd pair);
  do d <- attr data "append";
  list_append d (src, dst).

Definition _encode (pairs : list (sequence * sequence))
    (src_vocab tgt_vocab : vocab_arg) (src_max_vocab tgt_max_vocab : Z)
  : M unit :=
  do srcs <- lift (Py.index (Py.zip_star pairs) 0);
  do iv <- _init_vocab srcs src_max_vocab src_vocab;
  do_ modify (set_self (with_input_vocab (Some iv)));
  do tgts <- lift (Py.index (Py.zip_star pairs) 1);
  do ov <- _init_vocab tgts tgt_max_vocab tgt_vocab;
  do_ modify (set_self (with_output_vocab (Some ov)));
  do d <- new_list;
  do_ modify (set_self (with_data (Some d)));
  for_each pairs encode_body.

(** *** [Dataset.from_file], [Dataset.from_list] *)
Definition from_file (path : string) (src_max_len tgt_max_len : Z)
    (src_vocab tgt_vocab : vocab_arg) (src_max_vocab tgt_max_vocab : Z)
  : M unit :=
  do_ __init__ src_max_len tgt_max_len;
  do pairs <- (λ w, match prepare_data path src_max_len tgt_max_len with
                    | None => (Raise (IOError path), w)
                    | Some pairs => (OK pairs, w)
                    end);
  _encode pairs src_vocab tgt_vocab src_max_vocab tgt_max_vocab.

Definition from_list (src_data tgt_data : list sequence)
    (src_max_len tgt_max_len : Z)
    (src_vocab tgt_vocab : vocab_arg) (src_max_vocab tgt_max_vocab : Z)
  : M unit :=
  do_ __init__ src_max_len tgt_max_len;
  let pairs :=
    prepare_data_from_list src_data tgt_data src_max_len tgt_max_len in
  _encode pairs src_vocab tgt_vocab src_max_vocab tgt_max_vocab.

(** *** [Dataset.__len__] *)
Definition __len__ : M Z := len_data.

(** *** [Dataset.num_batches] *)
Definition num_batches (batch_size : Z) : M Z :=
  do n <- len_data;
  do r <- lift (Py.range 0 n batch_size);
  ret (Py.len r).

(** *** [Dataset.make_batches]

    A generator function: the call only builds the generator, and the
    body runs when the consumer asks for the next batch.  [GenStart] is a
    generator whose body has not started, [GenLoop] one suspended at the
    [yield] with the indices the [for] loop still has to visit, [GenDone]
    one that has returned or raised. *)
Inductive generator :=
| GenStart (batch_size : Z)
| GenLoop (batch_size : Z) (rest : list Z)
| GenDone.

Definition batch : Type := list ids * list ids.

Definition make_batches (batch_size : Z) : generator := GenStart batch_size.

(** The statements before the loop, up to the list the loop iterates
    over. *)
Definition batches_prologue (batch_size : Z) : M (list Z) :=
  do n <- len_data;
  if Z.ltb n batch_size then raise (OverflowError batch_size n)
  else
    do n <- len_data;
    lift (Py.range 0 n batch_size).

(** One iteration of the loop body, up to the [yield]. *)
Definition batches_body (batch_size i : Z) : M batch :=
  do r <- data_ref;
  do l <- read_list r;
  let cur_batch := Py.slice l i (i + batch_size) in
  let source_variables := map fst cur_batch in
  let target_variables := map snd cur_batch in
  ret (source_variables, target_variables).

Definition batches_loop (batch_size : Z) (rest : list Z) (w : world V G)
  : result batch * generator * world V G :=
  match rest with
  | [] => (Raise StopIteration, GenDone, w)
  | i :: rest' =>
      match batches_body batch_size i w with
      | (OK b, w') => (OK b, GenLoop batch_size rest', w')
      | (Raise e, w') => (Raise e, GenDone, w')
      end
  end.

(** [next(g)]: runs the body of the generator to the next [yield].  The
    outcome is the batch yielded or the exception raised in the consumer
    ([StopIteration] when the body returns), with the generator and the
    store as they are left. *)
Definition next (g : generator) (w : world V G)
  : result batch * generator * world V G :=
  match g with
  | GenStart batch_size =>
      match batches_prologue batch_size w with
      | (OK rest, w') => batches_loop batch_size rest w'
      | (Raise e, w') => (Raise e, GenDone, w')
      end
  | GenLoop batch_size rest => batches_loop batch_size rest w
  | GenDone => (Raise StopIteration, GenDone, w)
  end.

(** The outcomes of [k] successive calls of [next], the generator and the
    store they leave. *)
Fixpoint iter_next (k : nat) (g : generator) (w : world V G)
  : list (result batch) * generator * world V G :=
  match k with
  | O => ([], g, w)
  | S k' =>
      let '(r, g', w') := next g w in
      let '(rs, g'', w'') := iter_next k' g' w' in
      (r :: rs, g'', w'')
  end.

(** *** [random.seed], [random.shuffle] *)

Definition random_seed (seed : Z) : M unit :=
  modify (set_rng (λ _, seed_rng seed)).

(** [int(random() * n)] *)
Definition draw (n : nat) : M nat :=
  λ w, let '(j, g') := randbelow (rng w) n in (OK j, set_rng (λ _, g') w).

(** [x[i], x[j] = x[j], x[i]] *)
Definition swap_items (x : loc) (i j : nat) : M unit :=
  do l <- read_list x;
  match l !! j, l !! i with
  | Some xj, Some xi => write_list x (<[j := xi]> (<[i := xj]> l))
  | _, _ => raise IndexError
  end.

(** [random.shuffle(x)]:
    [for i in reversed(xrange(1, len(x))): j = int(random() * (i+1)); swap] *)
Definition shuffle_step (x : loc) (i : nat) : M unit :=
  do j <- draw (S i);
  swap_items x i j.

Definition random_shuffle (x : loc) : M unit :=
  do l <- read_list x;
  for_each (rev (seq 1 (length l - 1))) (shuffle_step x).

(** *** [Dataset.shuffle] *)
Definition shuffle (seed : option Z) : M unit :=
  do_ match seed with
      | Some seed => random_seed seed
      | None => ret tt
      end;
  do x <- data_ref;
  random_shuffle x.

End Methods.

(** ** Vocabulary of the statements *)

(** [self.data] is the list object whose content is [l]. *)
Definition data_is {V G} (w : world V G) (l : list (ids * ids)) : Prop :=
  ∃ r, data (self w) = Some r ∧ lists w !! r = Some l.

(** The [k]-th chunk of [batch_size] consecutive pairs of [l], as a batch:
    the sources and the targets of [l[k*b], l[k*b+1], ...]. *)
Definition chunk (batch_size : nat) (l : list (ids * ids)) (k : nat)
  : list ids * list ids :=
  let c := take batch_size (drop (k * batch_size) l) in
  (map fst c, map snd c).

(** The encoded form of a raw pair under the two vocabularies. *)
Definition encode_pair {V} `{!VocabularyAPI V} (vi vo : V)
    (pair : sequence * sequence) : ids * ids :=
  (indices_from_sequence vi (fst pair), indices_from_sequence vo (snd pair)).

(** The calls the encoding loop makes for one pair. *)
Definition encode_events (iv ov : loc) (pair : sequence * sequence)
  : list event :=
  [EIndices iv (fst pair); EIndices ov (snd pair)].

Definition is_encoding (e : event) : bool :=
  match e with
  | EIndices _ _ => true
  | _ => false
  end.

(** The calls that build a vocabulary from sequences: creation, one
    [add_sequence] per sequence, [trim]. *)
Definition build_events (max_size : Z) (r : loc) (seqs : list sequence)
  : list event :=
  ENew max_size r :: map (EAddSequence r) seqs ++ [ETrim r].

(** The calls that change the vocabulary object [r]. *)
Definition mutates (r : loc) (e : event) : bool :=
  match e with
  | EAddSequence r' _ | EAddToken r' _ | ETrim r' => Nat.eqb r' r
  | _ => false
  end.

(** A vocabulary argument that, when it is an object, is an object of the
    store. *)
Definition live {V G} (w : world V G) (arg : vocab_arg) : Prop :=
  match arg with
  | VInstance r => is_Some (vocabs w !! r)
  | _ => True
  end.

(** The events of the log that are calls of [trim] on the object [r]. *)
Definition trims_of (r : loc) (evs : list event) : list event :=
  List.filter (λ e, match e with ETrim r' => Nat.eqb r' r | _ => false end)
    evs.

(** The state of the generator once [shuffle] has installed the seed, if
    one is given. *)
Definition state_after_seed {G} `{!RandomAPI G} (seed : option Z) (g : G) : G :=
  match seed with
  | Some n => seed_rng n
  | None => g
  end.

(** [ceil(n / b)] for a positive [b]. *)
Definition ceil_div (n b : Z) : Z := (n + b - 1) / b.

(** ** An instance of the collaborators

    [dataset.py] imports [Vocabulary] and [utils] from the package and
    [random] from the interpreter; none of them is part of the file.  The
    instance below makes the methods runnable. *)

Module Model.

Definition reserved : list token := ["<pad>"; "<sos>"; "<eos>"; "<unk>"]%string.
Definition num_reserved : Z := 4.
Definition eos_index : Z := 2.
Definition unk_index : Z := 3.

(** Modelled from the spec: the [Vocabulary] class
    ([seq2seq.dataset.Vocabulary]) is not in [dataset.py].  A vocabulary
    has a size cap, a token-to-index mapping in insertion order, a
    token-to-count mapping and the next index to hand out; the four
    reserved symbols hold the lowest indices.  The spelling of the
    reserved symbols is a choice of this model. *)
Record vocabulary := mkVocabulary {
  max_size : Z;
  token2index : list (token * Z);
  token_count : list (token * Z);
  next_index : Z;
  trimmed : bool;
}.

Fixpoint assoc (t : token) (m : list (token * Z)) : option Z :=
  match m with
  | [] => None
  | (k, v) :: m' => if String.eqb k t then Some v else assoc t m'
  end.

Fixpoint bump (t : token) (m : list (token * Z)) : list (token * Z) :=
  match m with
  | [] => [(t, 1)]
  | (k, v) :: m' =>
      if String.eqb k t then (k, v + 1) :: m' else (k, v) :: bump t m'
  end.

Fixpoint number (i : Z) (ts : list token) : list (token * Z) :=
  match ts with
  | [] => []
  | t :: ts' => (t, i) :: number (i + 1) ts'
  end.

(** Modelled from the spec: constructing a vocabulary whose [max_size]
    is smaller than the number of reserved symbols is a configuration
    error, reported at construction. *)
Definition new (size : Z) : option vocabulary :=
  if Z.ltb size num_reserved then None
  else Some (mkVocabulary size (number 0 reserved) [] num_reserved false).

(** Modelled from the spec: [add_token] gives an unseen token the next
    available index and the count 1, and increments the count of a seen
    one. *)
Definition add_tok (t : token) (v : vocabulary) : vocabulary :=
  match assoc t (token2index v) with
  | Some _ =>
      mkVocabulary (max_size v) (token2index v) (bump t (token_count v))
        (next_index v) (trimmed v)
  | None =>
      mkVocabulary (max_size v) (token2index v ++ [(t, next_index v)])
        (bump t (token_count v)) (next_index v + 1) (trimmed v)
  end.

(** Modelled from the spec: [add_sequence] calls [add_token] for every
    token in order. *)
Definition add_seq (s : sequence) (v : vocabulary) : vocabulary :=
  fold_left (λ v t, add_tok t v) s v.

Definition count_of (v : vocabulary) (t : token) : Z :=
  default 0 (assoc t (token_count v)).

(** Insertion into a list sorted by descending count, before the first
    token whose count is not larger: tokens of equal count keep their
    order of insertion. *)
Fixpoint insert_by_count (v : vocabulary) (t : token) (ts : list token)
  : list token :=
  match ts with
  | [] => [t]
  | u :: ts' =>
      if Z.leb (count_of v u) (count_of v t) then t :: u :: ts'
      else u :: insert_by_count v t ts'
  end.

Definition is_reserved (t : token) : bool :=
  existsb (String.eqb t) reserved.

(** Modelled from the spec: [trim] keeps the reserved symbols, sorts the
    other tokens by descending frequency (stable), keeps
    [max_size - |reserved|] of them and rebuilds a contiguous index
    space; a second call does nothing. *)
Definition trim_vocab (v : vocabulary) : vocabulary :=
  if trimmed v then v
  else
    let others :=
      filter (λ t, is_reserved t = false) (map fst (token2index v)) in
    let sorted := foldr (insert_by_count v) [] others in
    let kept := take (Z.to_nat (max_size v - num_reserved)) sorted in
    mkVocabulary (max_size v) (number 0 (reserved ++ kept)) (token_count v)
      (num_reserved + Z.of_nat (length kept)) true.

(** Modelled from the spec: [indices_from_sequence] maps each token to
    its index, an absent token to the index of the unknown symbol, and
    appends the end-of-sequence index. *)
Definition encode_sequence (v : vocabulary) (s : sequence) : ids :=
  map (λ t, default unk_index (assoc t (token2index v))) s ++ [eos_index].

#[global] Instance vocabulary_api : VocabularyAPI vocabulary := {|
  Vocabulary := new;
  add_token := add_tok;
  add_sequence := add_seq;
  trim := trim_vocab;
  indices_from_sequence := encode_sequence;
|}.

(** Modelled from the spec: the length filter of [utils] is not in
    [dataset.py].  It pairs the two lists by position and drops every
    pair whose source is longer than [src_max_len] or whose target is
    longer than [tgt_max_len]. *)
Definition filter_pairs (src tgt : list sequence)
    (src_max_len tgt_max_len : Z) : list (sequence * sequence) :=
  filter (λ p, Py.len (fst p) ≤ src_max_len ∧ Py.len (snd p) ≤ tgt_max_len)
         (zip src tgt).

(** Ten raw pairs; the token of each side carries the number of the
    pair. *)
Definition raw10 : list (sequence * sequence) :=
  [ (["s0"], ["t0"]); (["s1"], ["t1"]); (["s2"], ["t2"]); (["s3"], ["t3"]);
    (["s4"], ["t4"]); (["s5"], ["t5"]); (["s6"], ["t6"]); (["s7"], ["t7"]);
    (["s8"], ["t8"]); (["s9"], ["t9"]) ]%string.

(** The files of this instance: a corpus of ten pairs and an empty one;
    no vocabulary file.  [read_corpus] filters what it reads by
    length, like [filter_pairs]. *)
Definition files : list (string * list (sequence * sequence)) :=
  [("corpus.tsv", raw10); ("empty.tsv", [])]%string.

Fixpoint find_file (path : string)
    (fs : list (string * list (sequence * sequence)))
  : option (list (sequence * sequence)) :=
  match fs with
  | [] => None
  | (name, content) :: fs' =>
      if String.eqb name path then Some content else find_file path fs'
  end.

Definition read_corpus (path : string) (src_max_len tgt_max_len : Z)
  : option (list (sequence * sequence)) :=
  match find_file path files with
  | None => None
  | Some content =>
      Some (filter_pairs (map fst content) (map snd content)
              src_max_len tgt_max_len)
  end.

#[global] Instance utils_api : UtilsAPI := {|
  read_vocabulary := λ _ _, None;
  prepare_data := read_corpus;
  prepare_data_from_list := filter_pairs;
|}.

(** A linear congruential generator in place of the interpreter's
    generator: the state is a number, a draw advances it and reduces it
    below the bound. *)
Definition lcg (g : Z) : Z := (g * 1103515245 + 12345) mod 2147483648.

Definition lcg_below (g : Z) (n : nat) : nat * Z :=
  (Z.to_nat (lcg g mod Z.of_nat n), lcg g).

Lemma lcg_below_lt g n : (0 < n)%nat → (fst (lcg_below g n) < n)%nat.
Proof.
  intros Hn. unfold lcg_below. simpl.
  pose proof (Z.mod_pos_bound (lcg g) (Z.of_nat n)). lia.
Qed.

#[global] Instance random_api : RandomAPI Z := {|
  seed_rng := λ s, s;
  randbelow := lcg_below;
  randbelow_lt := lcg_below_lt;
|}.

(** A store with no object, [self] as [__init__] leaves it. *)
Definition empty_world (g : Z) : world vocabulary Z :=
  mkWorld (mkDataset 10 10 None None None) [] [] g [].

(** The store after [_encode(raw10)] with default arguments. *)
Definition world10 : world vocabulary Z :=
  snd (_encode raw10 VNone VNone 50000 50000 (empty_world 0)).

Definition data10 : list (ids * ids) :=
  Eval vm_compute in default [] (lists world10 !! 0%nat).

(** The same store seen from a new [Dataset] object: the two
    vocabularies built for [world10] are there, ready to be handed over
    as pre-built vocabularies. *)
Definition world_prebuilt : world vocabulary Z :=
  snd (__init__ 10 10 world10).

End Model.

(** ** More stores and readers for the runs *)

Module Cases.

(** The store after [_encode] of a single pair. *)
Definition world1 : world Model.vocabulary Z :=
  snd (_encode [(["a"], ["b"])]%string VNone VNone 50000 50000
         (Model.empty_world 0)).

Definition data1 : list (ids * ids) :=
  Eval vm_compute in default [] (lists world1 !! 0%nat).

(** [world10] after [shuffle(seed=42)]. *)
Definition shuffled10 : world Model.vocabulary Z :=
  snd (shuffle (Some 42) Model.world10).

Definition shuffled_data10 : list (ids * ids) :=
  Eval vm_compute in default [] (lists shuffled10 !! 0%nat).

(** The vocabulary [Vocabulary(50000)] returns, and the source vocabulary
    of [world10]. *)
Definition empty50000 : Model.vocabulary :=
  Eval vm_compute in
    default (Model.mkVocabulary 0 [] [] 0 false) (Model.new 50000).

Definition prebuilt0 : Model.vocabulary :=
  Eval vm_compute in
    default empty50000 (vocabs Model.world_prebuilt !! 0%nat).

(** Readers with one vocabulary file, ["vocab.txt"], that lists three
    tokens; [read_vocabulary] returns at most [max_size] of them. *)
Definition vocab_file_utils : UtilsAPI := {|
  read_vocabulary := λ path max_size,
    if String.eqb path "vocab.txt"
    then Some (take (Z.to_nat max_size) ["s1"; "s0"; "zz"]%string)
    else None;
  prepare_data := Model.read_corpus;
  prepare_data_from_list := Model.filter_pairs;
|}.

End Cases.

(** * Properties *)

(** ** Python fragments *)

Lemma seq_map_succ {A} (f : nat → A) (n : nat) :
  map f (seq 0 (S n)) = f 0%nat :: map (λ k, f (S k)) (seq 0 n).
Proof.
  simpl. f_equal. rewrite <- seq_shift, map_map. reflexivity.
Qed.

Lemma ceil_div_step (d step : Z) :
  0 < step → 0 < d → ceil_div d step = ceil_div (d - step) step + 1.
Proof.
  intros Hs Hd. unfold ceil_div.
  replace (d + step - 1) with ((d - step + step - 1) + 1 * step) by lia.
  rewrite Z.div_add by lia. reflexivity.
Qed.

Lemma ceil_div_nonpos (d step : Z) : 0 < step → d ≤ 0 → ceil_div d step ≤ 0.
Proof.
  intros Hs Hd. unfold ceil_div.
  assert ((d + step - 1) / step < 1); [|lia].
  apply Z.div_lt_upper_bound; lia.
Qed.

Lemma ceil_div_nonneg (d step : Z) : 0 < step → 0 ≤ d → 0 ≤ ceil_div d step.
Proof. intros Hs Hd. unfold ceil_div. apply Z.div_pos; lia. Qed.

(** [ceil_div n b] is the least [k] with [n <= k * b]. *)
Lemma ceil_div_spec (n b : Z) :
  0 < b → (ceil_div n b - 1) * b < n ≤ ceil_div n b * b.
Proof.
  intros Hb. unfold ceil_div.
  pose proof (Z.div_mod (n + b - 1) b ltac:(lia)).
  pose proof (Z.mod_pos_bound (n + b - 1) b Hb). nia.
Qed.

(** With enough fuel, [range_up] lists [i, i + step, ...] below [stop]:
    [ceil((stop - i) / step)] values. *)
Lemma range_up_spec (fuel : nat) (i stop step : Z) :
  0 < step → (Z.to_nat (stop - i) ≤ fuel)%nat →
  Py.range_up fuel i stop step
  = map (λ k, i + Z.of_nat k * step)
        (seq 0 (Z.to_nat (ceil_div (stop - i) step))).
Proof.
  intros Hs. revert i. induction fuel as [|fuel IH]; intros i Hf.
  - assert (stop - i ≤ 0) by lia.
    pose proof (ceil_div_nonpos (stop - i) step Hs ltac:(lia)).
    replace (Z.to_nat (ceil_div (stop - i) step)) with 0%nat by lia.
    reflexivity.
  - simpl. destruct (Z.ltb_spec i stop) as [Hlt|Hge].
    + rewrite (ceil_div_step (stop - i) step) by lia.
      pose proof (ceil_div_nonneg (stop - i - step + step) step Hs ltac:(lia)).
      assert (0 ≤ ceil_div (stop - i - step) step) as Hnn.
      { pose proof (ceil_div_spec (stop - i - step) step Hs).
        pose proof (ceil_div_nonpos (stop - i - step) step Hs).
        destruct (Z_le_gt_dec 0 (stop - i - step)).
        - apply ceil_div_nonneg; lia.
        - nia. }
      rewrite Z2Nat.inj_add, Nat.add_1_r by lia.
      rewrite seq_map_succ. f_equal; [simpl; lia|].
      rewrite IH by lia.
      replace (stop - (i + step)) with (stop - i - step) by lia.
      apply map_ext. intros k. lia.
    + pose proof (ceil_div_nonpos (stop - i) step Hs ltac:(lia)).
      replace (Z.to_nat (ceil_div (stop - i) step)) with 0%nat by lia.
      reflexivity.
Qed.

(** [range(0, n, b)] for a positive step. *)
Lemma range_0_spec (n b : Z) :
  0 < b →
  Py.range 0 n b
  = OK (map (λ k, Z.of_nat k * b) (seq 0 (Z.to_nat (ceil_div n b)))).
Proof.
  intros Hb. unfold Py.range.
  destruct (Z.eqb_spec b 0); [lia|].
  destruct (Z.ltb_spec 0 b); [|lia].
  rewrite range_up_spec by lia.
  rewrite Z.sub_0_r. f_equal.
Qed.

(** ** Batching *)

Section Batching.
Context {V G : Type} `{!VocabularyAPI V} `{!UtilsAPI} `{!RandomAPI G}.
Implicit Types (w : world V G) (l : list (ids * ids)).

Lemma data_ref_is w l :
  data_is w l → ∃ r, data_ref w = (OK r, w) ∧ read_list r w = (OK l, w).
Proof.
  intros (r & Hd & Hl). exists r. unfold data_ref, read_list.
  rewrite Hd, Hl. done.
Qed.

Lemma len_data_is w l : data_is w l → len_data w = (OK (Py.len l), w).
Proof.
  intros (r & Hr & Hl)%data_ref_is. unfold len_data, bind.
  rewrite Hr, Hl. done.
Qed.

Lemma num_batches_spec w l b :
  data_is w l → 0 < b →
  num_batches b w = (OK (ceil_div (Py.len l) b), w).
Proof.
  intros Hd Hb. unfold num_batches, bind, lift, ret.
  rewrite (len_data_is w l Hd), range_0_spec by done.
  unfold Py.len at 1. rewrite length_map, length_seq.
  pose proof (ceil_div_nonneg (Py.len l) b Hb). unfold Py.len in *.
  do 2 f_equal. lia.
Qed.

(** A slice with non-negative bounds. *)
Lemma slice_nonneg {A} (xs : list A) (lo hi : Z) :
  0 ≤ lo ≤ hi →
  Py.slice xs lo hi = take (Z.to_nat (hi - lo)) (drop (Z.to_nat lo) xs).
Proof.
  intros Hlh. unfold Py.slice, Py.clamp.
  destruct (Z.ltb_spec lo 0); [lia|]. destruct (Z.ltb_spec hi 0); [lia|].
  destruct (Z_le_gt_dec (Z.of_nat (length xs)) lo).
  - rewrite !drop_ge by lia. by rewrite !take_nil.
  - replace (Z.to_nat (0 `max` (Z.of_nat (length xs) `min` lo)))
      with (Z.to_nat lo) by lia.
    destruct (Z_le_gt_dec hi (Z.of_nat (length xs))).
    + f_equal. lia.
    + rewrite !take_ge; [done| |]; rewrite length_drop; lia.
Qed.

Lemma batches_body_chunk w l (b k : nat) :
  data_is w l → (0 < b)%nat →
  batches_body (Z.of_nat b) (Z.of_nat k * Z.of_nat b) w
  = (OK (chunk b l k), w).
Proof.
  intros (r & Hr & Hl)%data_ref_is Hb. unfold batches_body, bind, ret.
  rewrite Hr, Hl. unfold chunk. rewrite slice_nonneg by lia.
  replace (Z.to_nat (Z.of_nat k * Z.of_nat b + Z.of_nat b
                     - Z.of_nat k * Z.of_nat b)) with b by lia.
  replace (Z.to_nat (Z.of_nat k * Z.of_nat b)) with (k * b)%nat by lia.
  done.
Qed.

Lemma iter_next_add (j k : nat) (g : generator) w :
  iter_next (j + k) g w
  = let '(rs, g', w') := iter_next j g w in
    let '(rs', g'', w'') := iter_next k g' w' in
    (rs ++ rs', g'', w'').
Proof.
  revert g w. induction j as [|j IH]; intros g w; simpl.
  - by destruct (iter_next k g w) as [[??]?].
  - destruct (next g w) as [[r g'] w']. rewrite IH.
    destruct (iter_next j g' w') as [[rs g''] w''].
    by destruct (iter_next k g'' w'') as [[??]?].
Qed.

(** A finished generator keeps raising [StopIteration]. *)
Lemma iter_next_done (k : nat) w :
  iter_next k GenDone w = (repeat (Raise StopIteration) k, GenDone, w).
Proof. induction k as [|k IH]; simpl; [done|]. by rewrite IH. Qed.

(** The loop, suspended with the indices [s*b, (s+1)*b, ...] still to
    visit, yields the chunks [s], [s+1], ... *)
Lemma iter_next_loop (m s b : nat) w l :
  data_is w l → (0 < b)%nat →
  iter_next m
    (GenLoop (Z.of_nat b)
       (map (λ k, Z.of_nat k * Z.of_nat b) (seq s m))) w
  = (map (λ k, OK (chunk b l k)) (seq s m), GenLoop (Z.of_nat b) [], w).
Proof.
  intros Hd Hb. revert s. induction m as [|m IH]; intros s; [done|].
  cbn [iter_next seq map next batches_loop].
  rewrite (batches_body_chunk w l b s Hd Hb), IH. done.
Qed.

Lemma prologue_overflow w l (b : Z) :
  data_is w l → Py.len l < b →
  batches_prologue b w = (Raise (OverflowError b (Py.len l)), w).
Proof.
  intros Hd Hlt. unfold batches_prologue, bind.
  rewrite (len_data_is w l Hd).
  destruct (Z.ltb_spec (Py.len l) b); [done|lia].
Qed.

Lemma prologue_range w l (b : Z) :
  data_is w l → 0 < b ≤ Py.len l →
  batches_prologue b w
  = (OK (map (λ k, Z.of_nat k * b)
           (seq 0 (Z.to_nat (ceil_div (Py.len l) b)))), w).
Proof.
  intros Hd Hb. unfold batches_prologue, bind, lift.
  rewrite (len_data_is w l Hd).
  destruct (Z.ltb_spec (Py.len l) b); [lia|].
  rewrite (len_data_is w l Hd), range_0_spec by lia. done.
Qed.

(** The outcomes of any number of [next] calls on [make_batches(b)]
    when the batch size fits: the chunks in order, then
    [StopIteration]. *)
Lemma iter_next_make_batches w l (b : Z) (extra : nat) :
  data_is w l → 0 < b ≤ Py.len l →
  let nb := Z.to_nat (ceil_div (Py.len l) b) in
  iter_next (nb + S extra) (make_batches b) w
  = (map (λ k, OK (chunk (Z.to_nat b) l k)) (seq 0 nb)
       ++ repeat (Raise StopIteration) (S extra),
     GenDone, w).
Proof.
  intros Hd Hb nb.
  assert (iter_next (nb + S extra) (make_batches b) w
          = iter_next (nb + S extra)
              (GenLoop b (map (λ k, Z.of_nat k * b) (seq 0 nb))) w) as ->.
  { replace (nb + S extra)%nat with (S (nb + extra)) by lia.
    cbn [iter_next make_batches next].
    by rewrite (prologue_range w l b Hd Hb). }
  rewrite iter_next_add.
  pose proof (iter_next_loop nb 0 (Z.to_nat b) w l Hd ltac:(lia)) as HL.
  rewrite Z2Nat.id in HL by lia. rewrite HL.
  cbn [iter_next next batches_loop]. rewrite iter_next_done. done.
Qed.

(** The generator functions read the store and leave it as it is. *)
Lemma data_ref_readonly w : snd (data_ref w) = w.
Proof. unfold data_ref. by destruct (data (self w)). Qed.

Lemma len_data_readonly w : snd (len_data w) = w.
Proof.
  unfold len_data, bind, data_ref, read_list, ret.
  destruct (data (self w)) as [r|]; [|done]. by destruct (lists w !! r).
Qed.

Lemma prologue_readonly b w : snd (batches_prologue b w) = w.
Proof.
  unfold batches_prologue, bind.
  pose proof (len_data_readonly w) as Hl.
  destruct (len_data w) as [[n|e] w'] eqn:E; simpl in Hl; subst w'; [|done].
  destruct (Z.ltb n b); [done|]. rewrite E. by destruct (Py.range 0 n b).
Qed.

Lemma body_readonly b i w : snd (batches_body b i w) = w.
Proof.
  unfold batches_body, bind, data_ref, read_list, ret.
  destruct (data (self w)) as [r|]; [|done]. by destruct (lists w !! r).
Qed.

Lemma loop_readonly b rest w : snd (batches_loop b rest w) = w.
Proof.
  destruct rest as [|i rest]; [done|]. simpl.
  pose proof (body_readonly b i w).
  by destruct (batches_body b i w) as [[?|?] ?].
Qed.

Lemma next_readonly g w : snd (next g w) = w.
Proof.
  destruct g as [b|b rest|]; simpl; [|apply loop_readonly|done].
  pose proof (prologue_readonly b w).
  destruct (batches_prologue b w) as [[rest|e] w']; simpl in *; subst; [|done].
  apply loop_readonly.
Qed.

Lemma iter_next_readonly k g w : snd (iter_next k g w) = w.
Proof.
  revert g w. induction k as [|k IH]; intros g w; [done|]. simpl.
  pose proof (next_readonly g w).
  destruct (next g w) as [[r g'] w']. simpl in *. subst w'.
  specialize (IH g' w). by destruct (iter_next k g' w) as [[??]?].
Qed.

(** Fewer calls of [next] see a prefix of the outcomes. *)
Lemma iter_next_prefix (j k : nat) g w :
  (j ≤ k)%nat →
  fst (fst (iter_next j g w)) `prefix_of` fst (fst (iter_next k g w)).
Proof.
  intros Hjk. replace k with (j + (k - j))%nat by lia.
  rewrite iter_next_add.
  destruct (iter_next j g w) as [[rs g'] w'].
  destruct (iter_next (k - j) g' w') as [[rs' g''] w'']. simpl.
  by exists rs'.
Qed.

Lemma iter_next_overflow w l (b : Z) (k : nat) :
  data_is w l → Py.len l < b →
  iter_next (S k) (make_batches b) w
  = (Raise (OverflowError b (Py.len l)) :: repeat (Raise StopIteration) k,
     GenDone, w).
Proof.
  intros Hd Hlt. cbn [iter_next make_batches next].
  rewrite (prologue_overflow w l b Hd Hlt), iter_next_done. done.
Qed.

(** Elements of a chunk are the elements of the list at consecutive
    positions. *)
Lemma chunk_lookup (bn : nat) l (k j : nat) :
  (j < bn)%nat →
  fst (chunk bn l k) !! j = fst <$> l !! (k * bn + j)%nat
  ∧ snd (chunk bn l k) !! j = snd <$> l !! (k * bn + j)%nat.
Proof.
  intros Hj. unfold chunk. simpl.
  rewrite !list_lookup_fmap, !lookup_take_lt, !lookup_drop by done. done.
Qed.

Lemma chunk_length (bn : nat) l (k : nat) :
  length (fst (chunk bn l k)) = (bn `min` (length l - k * bn))%nat
  ∧ length (snd (chunk bn l k)) = (bn `min` (length l - k * bn))%nat.
Proof.
  unfold chunk. simpl. by rewrite !length_map, !length_take, !length_drop.
Qed.

(** C2.  On a dataset whose [data] holds [n] pairs, [num_batches(b)]
    returns [ceil(n / b)] for every positive [b], the least [k] with
    [n <= k * b]; on ten pairs [num_batches(3)] returns 4. *)
Theorem num_batches_is_ceil w l (b : Z) :
  data_is w l → 1 ≤ b →
  num_batches b w = (OK (ceil_div (Py.len l) b), w)
  ∧ (ceil_div (Py.len l) b - 1) * b < Py.len l ≤ ceil_div (Py.len l) b * b
  ∧ (Py.len l = 10 → b = 3 → num_batches b w = (OK 4, w)).
Proof.
  intros Hd Hb. split; [|split].
  - apply num_batches_spec; [done|lia].
  - apply ceil_div_spec. lia.
  - intros Hn ->. rewrite (num_batches_spec w l 3 Hd) by lia.
    rewrite Hn. reflexivity.
Qed.

(** C3.  For a positive batch size [b], iterating [make_batches(b)]
    raises [OverflowError] exactly when [b] exceeds [len(data)].  It is
    then raised by the first [next], the generator is finished, the store
    is untouched and no call of [next] ever yields a batch; batch size 11
    on ten pairs raises it. *)
Theorem make_batches_overflow_iff w l (b : Z) :
  data_is w l → 1 ≤ b →
  ((∃ k bs ds,
      Raise (OverflowError bs ds) ∈ fst (fst (iter_next k (make_batches b) w)))
   ↔ Py.len l < b)
  ∧ (Py.len l < b →
     next (make_batches b) w
     = (Raise (OverflowError b (Py.len l)), GenDone, w)
     ∧ ∀ k r, r ∈ fst (fst (iter_next k (make_batches b) w)) →
              ∀ x, r ≠ OK x)
  ∧ (Py.len l = 10 → b = 11 →
     next (make_batches b) w = (Raise (OverflowError 11 10), GenDone, w)).
Proof.
  intros Hd Hb.
  assert (Py.len l < b →
          next (make_batches b) w
          = (Raise (OverflowError b (Py.len l)), GenDone, w)) as Hfirst.
  { intros Hlt. cbn [make_batches next].
    by rewrite (prologue_overflow w l b Hd Hlt). }
  split; [split|split].
  - intros (k & bs & ds & Hin).
    destruct (Z_lt_ge_dec (Py.len l) b) as [|Hge]; [done|exfalso].
    set (nb := Z.to_nat (ceil_div (Py.len l) b)).
    destruct (iter_next_prefix k (nb + S k) (make_batches b) w ltac:(lia))
      as [tl Htl].
    pose proof (iter_next_make_batches w l b k Hd ltac:(lia)) as HM.
    cbv zeta in HM. fold nb in HM. rewrite HM in Htl. simpl in Htl.
    assert (Raise (OverflowError bs ds)
            ∈ map (λ k0, OK (chunk (Z.to_nat b) l k0)) (seq 0 nb)
              ++ Raise StopIteration :: repeat (Raise StopIteration) k)
      as Hin'.
    { rewrite Htl. apply elem_of_app. by left. }
    apply elem_of_app in Hin' as [Hin'|Hin'].
    + apply list_elem_of_fmap in Hin' as (? & ? & ?). done.
    + change (Raise (OverflowError bs ds)
              ∈ repeat (Raise (A:=batch) StopIteration) (S k)) in Hin'.
      apply list_elem_of_In, repeat_spec in Hin'. done.
  - intros Hlt. exists 1%nat, b, (Py.len l).
    rewrite (iter_next_overflow w l b 0 Hd Hlt). simpl. apply list_elem_of_here.
  - intros Hlt. split; [by apply Hfirst|].
    intros [|k] r Hin x ->; [by apply not_elem_of_nil in Hin|].
    rewrite (iter_next_overflow w l b k Hd Hlt) in Hin. simpl in Hin.
    apply elem_of_cons in Hin as [Hin|Hin]; [done|].
    apply list_elem_of_In, repeat_spec in Hin. done.
  - intros Hn ->. rewrite <- Hn. apply Hfirst. lia.
Qed.

(** C4.  When [1 <= b <= len(data)], [make_batches(b)] yields
    [num_batches(b)] batches and then stops; the [k]-th batch holds the
    sources and the targets of [data[k*b], data[k*b+1], ...] in order,
    every batch but the last has [b] pairs and none is empty; the store
    is left as it was, so that a fresh call, after any number of steps of
    an earlier generator, replays the same batches. *)
Theorem make_batches_consecutive_chunks w l (b : Z) :
  data_is w l → 1 ≤ b ≤ Py.len l →
  let nb := Z.to_nat (ceil_div (Py.len l) b) in
  let bn := Z.to_nat b in
  num_batches b w = (OK (Z.of_nat nb), w)
  ∧ iter_next (S nb) (make_batches b) w
    = (map (λ k, OK (chunk bn l k)) (seq 0 nb) ++ [Raise StopIteration],
       GenDone, w)
  ∧ (∀ k j, (k < nb)%nat → (j < bn)%nat →
       fst (chunk bn l k) !! j = fst <$> l !! (k * bn + j)%nat
       ∧ snd (chunk bn l k) !! j = snd <$> l !! (k * bn + j)%nat)
  ∧ (∀ k, (S k < nb)%nat →
       length (fst (chunk bn l k)) = bn ∧ length (snd (chunk bn l k)) = bn)
  ∧ (∀ k, (k < nb)%nat →
       (1 ≤ length (fst (chunk bn l k)) ≤ bn)%nat
       ∧ length (snd (chunk bn l k)) = length (fst (chunk bn l k)))
  ∧ (∀ j g, snd (iter_next j g w) = w).
Proof.
  intros Hd Hb nb bn.
  pose proof (ceil_div_spec (Py.len l) b ltac:(lia)) as Hc.
  pose proof (ceil_div_nonneg (Py.len l) b ltac:(lia) ltac:(lia)) as Hnn.
  assert (Z.of_nat nb = ceil_div (Py.len l) b) as Hnb by (unfold nb; lia).
  assert (Z.of_nat bn = b) as Hbn by (unfold bn; lia).
  rewrite <- Hnb in Hc. unfold Py.len in Hc, Hb. rewrite <- Hbn in Hc.
  split; [|split; [|split; [|split; [|split]]]].
  - rewrite (num_batches_spec w l b Hd) by lia. by rewrite Hnb.
  - replace (S nb) with (nb + 1)%nat by lia.
    apply (iter_next_make_batches w l b 0 Hd). unfold Py.len. lia.
  - intros k j _ Hj. by apply chunk_lookup.
  - intros k Hk. destruct (chunk_length bn l k) as [-> ->].
    assert (bn ≤ length l - k * bn)%nat; [nia|lia].
  - intros k Hk. destruct (chunk_length bn l k) as [-> ->].
    assert (1 ≤ length l - k * bn)%nat; [nia|lia].
  - intros j g. apply iter_next_readonly.
Qed.

End Batching.

(** ** Shuffling *)

Section Shuffling.
Context {V G : Type} `{!VocabularyAPI V} `{!UtilsAPI} `{!RandomAPI G}.
Implicit Types (w : world V G) (l : list (ids * ids)).

Lemma insert_head_Permutation {A} (xs : list A) (j : nat) (x a : A) :
  xs !! j = Some x → x :: <[j := a]> xs ≡ₚ a :: xs.
Proof.
  revert j. induction xs as [|y xs IH]; intros [|j] Hj; simplify_eq/=.
  - apply Permutation_swap.
  - rewrite Permutation_swap, (IH j Hj). apply Permutation_swap.
Qed.

(** Exchanging two items of a list permutes it. *)
Lemma swap_Permutation {A} (xs : list A) (i j : nat) (xi xj : A) :
  xs !! i = Some xi → xs !! j = Some xj →
  <[j := xi]> (<[i := xj]> xs) ≡ₚ xs.
Proof.
  revert i j. induction xs as [|y xs IH]; intros [|i] [|j] Hi Hj;
    simplify_eq/=; try done.
  - by apply insert_head_Permutation.
  - by apply insert_head_Permutation.
  - f_equiv. by apply IH.
Qed.

Lemma swap_items_ok w l (x i j : nat) (xi xj : ids * ids) :
  lists w !! x = Some l → l !! i = Some xi → l !! j = Some xj →
  swap_items x i j w
  = (OK tt, set_lists (λ ls, <[x := <[j := xi]> (<[i := xj]> l)]> ls) w).
Proof.
  intros Hx Hi Hj. unfold swap_items, bind, read_list.
  rewrite Hx, Hi, Hj. done.
Qed.

(** One round of the loop of [random.shuffle], for an index inside the
    list: the list it leaves and the generator state depend on the list
    and the generator state it finds, and on nothing else in the
    store. *)
Lemma shuffle_step_ok l (g : G) (i : nat) :
  (i < length l)%nat →
  ∃ l' g',
    l' ≡ₚ l
    ∧ ∀ w (x : loc), lists w !! x = Some l → rng w = g →
        shuffle_step x i w
        = (OK tt,
           mkWorld (self w) (vocabs w) (<[x := l']> (lists w)) g' (log w)).
Proof.
  intros Hi.
  pose proof (randbelow_lt g (S i) ltac:(lia)) as Hlt.
  destruct (randbelow g (S i)) as [j g'] eqn:Hr. simpl in Hlt.
  destruct (lookup_lt_is_Some_2 l i Hi) as [xi Hxi].
  destruct (lookup_lt_is_Some_2 l j ltac:(lia)) as [xj Hxj].
  exists (<[j := xi]> (<[i := xj]> l)), g'. split.
  - by apply swap_Permutation.
  - intros w x Hx <-. unfold shuffle_step, bind, draw. rewrite Hr.
    by erewrite swap_items_ok.
Qed.

Lemma shuffle_loop_ok (idx : list nat) l (g : G) :
  Forall (λ i, i < length l)%nat idx →
  ∃ l' g',
    l' ≡ₚ l
    ∧ ∀ w (x : loc), lists w !! x = Some l → rng w = g →
        for_each idx (shuffle_step x) w
        = (OK tt,
           mkWorld (self w) (vocabs w) (<[x := l']> (lists w)) g' (log w)).
Proof.
  revert l g. induction idx as [|i idx IH]; intros l g Hidx.
  - exists l, g. split; [done|]. intros w x Hx <-.
    rewrite list_insert_id by done. by destruct w.
  - apply Forall_cons in Hidx as [Hi Hidx].
    destruct (shuffle_step_ok l g i Hi) as (l1 & g1 & Hp1 & Hs).
    destruct (IH l1 g1) as (l2 & g2 & Hp2 & Hf).
    { eapply Forall_impl; [done|]. intros k Hk. simpl in *.
      by rewrite (Permutation_length Hp1). }
    exists l2, g2. split; [by rewrite Hp2|]. intros w x Hx Hg.
    cbn [for_each]. unfold bind at 1. rewrite (Hs w x Hx Hg).
    assert (x < length (lists w))%nat as Hlen by by eapply lookup_lt_Some.
    rewrite (Hf _ x); simpl; [|by apply list_lookup_insert_eq|done].
    by rewrite list_insert_insert_eq.
Qed.

Lemma random_shuffle_ok l (g : G) :
  ∃ l' g',
    l' ≡ₚ l
    ∧ ∀ w (x : loc), lists w !! x = Some l → rng w = g →
        random_shuffle x w
        = (OK tt,
           mkWorld (self w) (vocabs w) (<[x := l']> (lists w)) g' (log w)).
Proof.
  destruct (shuffle_loop_ok (rev (seq 1 (length l - 1))) l g)
    as (l' & g' & Hp & Hf).
  { apply Forall_forall. intros i Hi%list_elem_of_In.
    apply in_rev, in_seq in Hi. lia. }
  exists l', g'. split; [done|]. intros w x Hx Hg.
  unfold random_shuffle, bind, read_list. rewrite Hx. by apply Hf.
Qed.

Lemma shuffle_ok l (g : G) (seed : option Z) :
  ∃ l' g',
    l' ≡ₚ l
    ∧ ∀ w (x : loc),
        data (self w) = Some x → lists w !! x = Some l →
        state_after_seed seed (rng w) = g →
        shuffle seed w
        = (OK tt,
           mkWorld (self w) (vocabs w) (<[x := l']> (lists w)) g' (log w)).
Proof.
  destruct (random_shuffle_ok l g) as (l' & g' & Hp & Hf).
  exists l', g'. split; [done|]. intros w x Hd Hx Hg.
  unfold shuffle, bind.
  destruct seed as [n|]; simpl in *.
  - unfold random_seed, modify, data_ref. simpl. rewrite Hd.
    by rewrite (Hf _ x).
  - unfold ret, data_ref. rewrite Hd. by rewrite (Hf _ x).
Qed.

(** C5.  Two runs that call [shuffle] with the same integer seed on
    [data] lists of the same content end with the same order of [data]
    and with the generator in the same state, whatever state the
    generator was in before the calls; so do two [shuffle(seed=42)]
    calls. *)
Theorem shuffle_seed_deterministic (w1 w2 : world V G) l (seed : Z) :
  data_is w1 l → data_is w2 l →
  (∃ l' w1' w2',
     shuffle (Some seed) w1 = (OK tt, w1')
     ∧ shuffle (Some seed) w2 = (OK tt, w2')
     ∧ data_is w1' l' ∧ data_is w2' l'
     ∧ rng w1' = rng w2')
  ∧ (seed = 42 →
     ∃ l', data_is (snd (shuffle (Some 42) w1)) l'
           ∧ data_is (snd (shuffle (Some 42) w2)) l').
Proof.
  intros (x1 & Hd1 & Hx1) (x2 & Hd2 & Hx2).
  destruct (shuffle_ok l (seed_rng seed) (Some seed))
    as (l' & g' & _ & Hf).
  pose proof (Hf w1 x1 Hd1 Hx1 eq_refl) as H1.
  pose proof (Hf w2 x2 Hd2 Hx2 eq_refl) as H2.
  assert (∀ (w : world V G) x, data (self w) = Some x →
            lists w !! x = Some l →
            data_is (mkWorld (self w) (vocabs w) (<[x := l']> (lists w)) g'
                       (log w)) l') as Hdata.
  { intros w x Hd Hx. exists x. split; [done|]. simpl.
    apply list_lookup_insert_eq. by eapply lookup_lt_Some. }
  split.
  - eexists l', _, _. split; [exact H1|]. split; [exact H2|]. simpl. auto.
  - intros ->. exists l'. rewrite H1, H2. simpl. auto.
Qed.

(** C6.  [shuffle], with or without a seed, succeeds on an encoded
    dataset and replaces the content of the list object [self.data]
    refers to by a permutation of it: [self] still refers to the same
    object, every other object, the vocabularies and the log are left
    alone, the length is kept, and the list holds the same
    (source, target) pairs as before, each side with the side it was
    paired with. *)
Theorem shuffle_is_permutation w l (r : loc) (seed : option Z) :
  data (self w) = Some r → lists w !! r = Some l →
  ∃ l' g',
    shuffle seed w
    = (OK tt, mkWorld (self w) (vocabs w) (<[r := l']> (lists w)) g' (log w))
    ∧ l' ≡ₚ l
    ∧ length l' = length l
    ∧ (<[r := l']> (lists w)) !! r = Some l'
    ∧ (∀ r', r' ≠ r → (<[r := l']> (lists w)) !! r' = lists w !! r')
    ∧ (∀ src tgt, (src, tgt) ∈ l' ↔ (src, tgt) ∈ l).
Proof.
  intros Hd Hx.
  destruct (shuffle_ok l (state_after_seed seed (rng w)) seed)
    as (l' & g' & Hp & Hf).
  exists l', g'. split; [by apply Hf|]. split; [done|].
  split; [by apply Permutation_length|].
  split; [apply list_lookup_insert_eq; by eapply lookup_lt_Some|].
  split; [intros r' Hr'; by apply list_lookup_insert_ne|].
  intros src tgt. by rewrite Hp.
Qed.

End Shuffling.

(** ** Vocabulary resolution and encoding *)

Section Encoding.
Context {V G : Type} `{!VocabularyAPI V} `{!UtilsAPI} `{!RandomAPI G}.
Implicit Types (w : world V G) (pairs : list (sequence * sequence)).

Lemma new_vocabulary_ok (max_size : Z) (v0 : V) w :
  Vocabulary max_size = Some v0 →
  new_vocabulary max_size w
  = (OK (length (vocabs w)),
     mkWorld (self w) (vocabs w ++ [v0]) (lists w) (rng w)
       (log w ++ [ENew max_size (length (vocabs w))])).
Proof. intros Hv. unfold new_vocabulary. by rewrite Hv. Qed.

Lemma new_vocabulary_fails (max_size : Z) w :
  Vocabulary max_size = None →
  new_vocabulary max_size w = (Raise (ConfigurationError max_size), w).
Proof. intros Hv. unfold new_vocabulary. by rewrite Hv. Qed.

(** A loop of updating calls on the last object of the store. *)
Lemma for_each_update_last {A} (xs : list A) (f : A → V → V)
    (ev : A → event) (d : Dataset) (vs : list V) (v : V)
    (ls : list (list (ids * ids))) (g : G) (evs : list event) :
  for_each xs (λ x, update_vocab (length vs) (f x) (ev x))
    (mkWorld d (vs ++ [v]) ls g evs)
  = (OK tt,
     mkWorld d (vs ++ [fold_left (λ v x, f x v) xs v]) ls g
       (evs ++ map ev xs)).
Proof.
  revert v evs. induction xs as [|x xs IH]; intros v evs.
  - simpl. by rewrite app_nil_r.
  - cbn [for_each]. unfold bind, update_vocab at 1. simpl.
    rewrite list_lookup_middle by done. unfold emit, set_vocabs. simpl.
    replace (<[length vs := f x v]> (vs ++ [v])) with (vs ++ [f x v]).
    + rewrite IH. simpl. by rewrite <- app_assoc.
    + replace (length vs) with (length vs + 0)%nat at 1 by lia.
      by rewrite insert_app_r.
Qed.

Lemma update_last (f : V → V) (e : event) (d : Dataset) (vs : list V)
    (v : V) (ls : list (list (ids * ids))) (g : G) (evs : list event) :
  update_vocab (length vs) f e (mkWorld d (vs ++ [v]) ls g evs)
  = (OK tt, mkWorld d (vs ++ [f v]) ls g (evs ++ [e])).
Proof.
  unfold update_vocab. simpl. rewrite list_lookup_middle by done.
  unfold emit, set_vocabs. simpl. do 3 f_equal.
  replace (length vs) with (length vs + 0)%nat at 1 by lia.
  by rewrite insert_app_r.
Qed.

(** *** [_init_vocab], case by case *)

Lemma init_vocab_ctor_fails (seqs : list sequence) (max_size : Z)
    (arg : vocab_arg) w :
  Vocabulary max_size = None →
  _init_vocab seqs max_size arg w
  = (Raise (ConfigurationError max_size), w).
Proof.
  intros Hv. unfold _init_vocab, bind.
  by rewrite (new_vocabulary_fails _ _ Hv).
Qed.

Lemma init_vocab_none (seqs : list sequence) (max_size : Z) (v0 : V) w :
  Vocabulary max_size = Some v0 →
  _init_vocab seqs max_size VNone w
  = (OK (length (vocabs w)),
     mkWorld (self w)
       (vocabs w ++ [trim (fold_left (λ v s, add_sequence s v) seqs v0)])
       (lists w) (rng w)
       (log w ++ build_events max_size (length (vocabs w)) seqs)).
Proof.
  intros Hv. unfold _init_vocab, bind.
  rewrite (new_vocabulary_ok _ _ _ Hv).
  unfold call_add_sequence. rewrite for_each_update_last.
  unfold call_trim. rewrite update_last. unfold ret, build_events.
  by rewrite <- !app_assoc.
Qed.

Lemma init_vocab_instance (seqs : list sequence) (max_size : Z) (v0 : V)
    (r : loc) w :
  Vocabulary max_size = Some v0 →
  _init_vocab seqs max_size (VInstance r) w
  = (OK r,
     mkWorld (self w) (vocabs w ++ [v0]) (lists w) (rng w)
       (log w ++ [ENew max_size (length (vocabs w))])).
Proof.
  intros Hv. unfold _init_vocab, bind.
  by rewrite (new_vocabulary_ok _ _ _ Hv).
Qed.

Lemma init_vocab_other (seqs : list sequence) (max_size : Z) (v0 : V)
    (repr : string) w :
  Vocabulary max_size = Some v0 →
  _init_vocab seqs max_size (VOther repr) w
  = (Raise (AttributeError repr),
     mkWorld (self w) (vocabs w ++ [v0]) (lists w) (rng w)
       (log w ++ [ENew max_size (length (vocabs w))])).
Proof.
  intros Hv. unfold _init_vocab, bind.
  by rewrite (new_vocabulary_ok _ _ _ Hv).
Qed.

Lemma init_vocab_str (seqs : list sequence) (max_size : Z) (v0 : V)
    (path : string) w :
  Vocabulary max_size = Some v0 →
  _init_vocab seqs max_size (VStr path) w
  = match read_vocabulary path max_size with
    | Some toks =>
        (OK (length (vocabs w)),
         mkWorld (self w)
           (vocabs w ++ [fold_left (λ v t, add_token t v) toks v0])
           (lists w) (rng w)
           (log w ++ ENew max_size (length (vocabs w))
                  :: EReadVocabulary path max_size
                  :: map (EAddToken (length (vocabs w))) toks))
    | None =>
        (Raise (IOError path),
         mkWorld (self w) (vocabs w ++ [v0]) (lists w) (rng w)
           (log w ++ [ENew max_size (length (vocabs w));
                      EReadVocabulary path max_size]))
    end.
Proof.
  intros Hv. unfold _init_vocab, bind.
  rewrite (new_vocabulary_ok _ _ _ Hv).
  unfold call_read_vocabulary.
  destruct (read_vocabulary path max_size) as [toks|]; simpl.
  - unfold emit. simpl. unfold call_add_token.
    rewrite for_each_update_last. unfold ret.
    by rewrite <- !app_assoc.
  - unfold emit. simpl. by rewrite <- app_assoc.
Qed.

(** [_init_vocab] depends on the store through the number of vocabulary
    objects only: its outcome, the objects it adds and the calls it
    makes are the same in every store with [n] such objects.  None of the
    calls is a call of [indices_from_sequence], none changes an object
    other than the new one, and a call that returns has added exactly one
    object. *)
Lemma init_vocab_uniform (seqs : list sequence) (max_size : Z)
    (arg : vocab_arg) (n : nat) :
  ∃ (res : result loc) (vs' : list V) (evs : list event),
    (∀ w, length (vocabs w) = n →
       _init_vocab seqs max_size arg w
       = (res,
          mkWorld (self w) (vocabs w ++ vs') (lists w) (rng w)
            (log w ++ evs)))
    ∧ Forall (λ e, is_encoding e = false) evs
    ∧ Forall (λ e, ∀ r, r ≠ n → mutates r e = false) evs
    ∧ (∀ r, res = OK r →
         length vs' = 1%nat ∧ (arg = VInstance r ∨ r = n)).
Proof.
  assert (∀ r, r ≠ n → (n =? r)%nat = false) as Hneq
    by (intros r Hr; by apply Nat.eqb_neq).
  destruct (Vocabulary max_size) as [v0|] eqn:Hv.
  - destruct arg as [|r|path|repr].
    + eexists _, _, _. split; [|split; [|split]].
      * intros w Hn. rewrite (init_vocab_none _ _ _ _ Hv), Hn. reflexivity.
      * unfold build_events. apply Forall_cons. split; [done|].
        apply Forall_app. split; [|by apply Forall_singleton].
        apply Forall_fmap, Forall_true. done.
      * unfold build_events. apply Forall_cons. split; [done|].
        apply Forall_app. split; [|by apply Forall_singleton].
        apply Forall_fmap, Forall_true. intros s r Hr. by apply Hneq.
      * intros r [= <-]. auto.
    + eexists _, _, _. split; [|split; [|split]].
      * intros w Hn. rewrite (init_vocab_instance _ _ _ _ _ Hv), Hn.
        reflexivity.
      * by apply Forall_singleton.
      * by apply Forall_singleton.
      * intros r0 [= <-]. auto.
    + destruct (read_vocabulary path max_size) as [toks|] eqn:Hread;
        eexists _, _, _; (split; [|split; [|split]]).
      * intros w Hn. rewrite (init_vocab_str _ _ _ _ _ Hv), Hread, Hn.
        reflexivity.
      * do 2 (apply Forall_cons; split; [done|]).
        apply Forall_fmap, Forall_true. done.
      * do 2 (apply Forall_cons; split; [done|]).
        apply Forall_fmap, Forall_true. intros s r Hr. by apply Hneq.
      * intros r [= <-]. auto.
      * intros w Hn. rewrite (init_vocab_str _ _ _ _ _ Hv), Hread, Hn.
        reflexivity.
      * by do 2 (apply Forall_cons; split; [done|]).
      * by do 2 (apply Forall_cons; split; [done|]).
      * done.
    + eexists _, _, _. split; [|split; [|split]].
      * intros w Hn. rewrite (init_vocab_other _ _ _ _ _ Hv), Hn.
        reflexivity.
      * by apply Forall_singleton.
      * by apply Forall_singleton.
      * done.
  - exists (Raise (ConfigurationError max_size)), [], [].
    split; [|split; [|split]]; try done.
    intros w _. rewrite (init_vocab_ctor_fails _ _ _ _ Hv).
    rewrite !app_nil_r. by destruct w.
Qed.

Lemma init_vocab_frame (seqs : list sequence) (max_size : Z)
    (arg : vocab_arg) w :
  ∃ vs' evs,
    snd (_init_vocab seqs max_size arg w)
    = mkWorld (self w) (vocabs w ++ vs') (lists w) (rng w) (log w ++ evs)
    ∧ Forall (λ e, is_encoding e = false) evs.
Proof.
  destruct (init_vocab_uniform seqs max_size arg (length (vocabs w)))
    as (res & vs' & evs & Hrun & Henc & _).
  exists vs', evs. by rewrite (Hrun w eq_refl).
Qed.

(** *** The encoding loop *)

Lemma encode_body_ok (pair : sequence * sequence) w (iv ov d : loc)
    (vi vo : V) (acc : list (ids * ids)) :
  input_vocab (self w) = Some iv → output_vocab (self w) = Some ov →
  data (self w) = Some d →
  vocabs w !! iv = Some vi → vocabs w !! ov = Some vo →
  lists w !! d = Some acc →
  encode_body pair w
  = (OK tt,
     mkWorld (self w) (vocabs w)
       (<[d := acc ++ [encode_pair vi vo pair]]> (lists w)) (rng w)
       (log w ++ encode_events iv ov pair)).
Proof.
  intros Hiv Hov Hd Hvi Hvo Hacc.
  unfold encode_body, bind, attr, call_indices_from_sequence, emit,
    list_append, bind, read_list, write_list, modify, set_lists.
  repeat (simpl;
          first [rewrite Hiv|rewrite Hov|rewrite Hd|rewrite Hvi|rewrite Hvo
                |rewrite Hacc]).
  unfold encode_events, encode_pair. simpl. by rewrite <- app_assoc.
Qed.

Lemma encode_loop_ok pairs w (iv ov d : loc) (vi vo : V)
    (acc : list (ids * ids)) :
  input_vocab (self w) = Some iv → output_vocab (self w) = Some ov →
  data (self w) = Some d →
  vocabs w !! iv = Some vi → vocabs w !! ov = Some vo →
  lists w !! d = Some acc →
  for_each pairs encode_body w
  = (OK tt,
     mkWorld (self w) (vocabs w)
       (<[d := acc ++ map (encode_pair vi vo) pairs]> (lists w)) (rng w)
       (log w ++ flat_map (encode_events iv ov) pairs)).
Proof.
  revert w acc. induction pairs as [|pair pairs IH];
    intros w acc Hiv Hov Hd Hvi Hvo Hacc.
  - simpl. rewrite !app_nil_r, list_insert_id by done. by destruct w.
  - cbn [for_each]. unfold bind.
    rewrite (encode_body_ok pair w iv ov d vi vo acc) by done.
    assert (d < length (lists w))%nat by by eapply lookup_lt_Some.
    rewrite (IH _ (acc ++ [encode_pair vi vo pair])); simpl; try done.
    + rewrite list_insert_insert_eq, <- !app_assoc. done.
    + by apply list_lookup_insert_eq.
Qed.

(** *** [_encode] *)

Lemma zip_star_sources pairs :
  pairs ≠ [] → Py.index (Py.zip_star pairs) 0 = OK (map fst pairs).
Proof. by destruct pairs. Qed.

Lemma zip_star_targets pairs :
  pairs ≠ [] → Py.index (Py.zip_star pairs) 1 = OK (map snd pairs).
Proof. by destruct pairs. Qed.

(** On an empty list [zip( *pairs)] is empty and its item 0 does not
    exist. *)
Lemma encode_empty (sv tv : vocab_arg) (sm tm : Z) w :
  _encode [] sv tv sm tm w = (Raise IndexError, w).
Proof. reflexivity. Qed.

Lemma encode_source_fails pairs (sv tv : vocab_arg) (sm tm : Z) w
    (e : exn) (w1 : world V G) :
  pairs ≠ [] →
  _init_vocab (map fst pairs) sm sv w = (Raise e, w1) →
  _encode pairs sv tv sm tm w = (Raise e, w1).
Proof.
  intros Hne H1. unfold _encode, bind, lift.
  by rewrite (zip_star_sources pairs Hne), H1.
Qed.

Lemma encode_target_fails pairs (sv tv : vocab_arg) (sm tm : Z) w
    (iv : loc) (e : exn) (w1 w2 : world V G) :
  pairs ≠ [] →
  _init_vocab (map fst pairs) sm sv w = (OK iv, w1) →
  _init_vocab (map snd pairs) tm tv (set_self (with_input_vocab (Some iv)) w1)
  = (Raise e, w2) →
  _encode pairs sv tv sm tm w = (Raise e, w2).
Proof.
  intros Hne H1 H2. unfold _encode, bind, lift, modify.
  by rewrite (zip_star_sources pairs Hne), H1,
    (zip_star_targets pairs Hne), H2.
Qed.

(** Both sides resolved, to live objects: the call completes. *)
Lemma encode_ok pairs (sv tv : vocab_arg) (sm tm : Z) w
    (iv ov : loc) (w1 w2 : world V G) (vi vo : V) :
  pairs ≠ [] →
  _init_vocab (map fst pairs) sm sv w = (OK iv, w1) →
  _init_vocab (map snd pairs) tm tv (set_self (with_input_vocab (Some iv)) w1)
  = (OK ov, w2) →
  vocabs w2 !! iv = Some vi → vocabs w2 !! ov = Some vo →
  _encode pairs sv tv sm tm w
  = (OK tt,
     mkWorld
       (with_data (Some (length (lists w)))
          (with_output_vocab (Some ov)
             (with_input_vocab (Some iv) (self w))))
       (vocabs w2)
       (lists w ++ [map (encode_pair vi vo) pairs])
       (rng w)
       (log w2 ++ flat_map (encode_events iv ov) pairs)).
Proof.
  intros Hne H1 H2 Hvi Hvo.
  destruct (init_vocab_frame (map fst pairs) sm sv w) as (vs1 & ev1 & F1 & _).
  rewrite H1 in F1. simpl in F1. subst w1.
  destruct (init_vocab_frame (map snd pairs) tm tv
              (set_self (with_input_vocab (Some iv))
                 (mkWorld (self w) (vocabs w ++ vs1) (lists w) (rng w)
                    (log w ++ ev1)))) as (vs2 & ev2 & F2 & _).
  rewrite H2 in F2. simpl in F2. subst w2. simpl in Hvi, Hvo.
  unfold _encode, bind, lift, modify, new_list.
  rewrite (zip_star_sources pairs Hne), H1, (zip_star_targets pairs Hne), H2.
  unfold set_self, set_lists. simpl.
  erewrite (encode_loop_ok pairs _ iv ov (length (lists w)) vi vo []);
    simpl; try done.
  - replace (length (lists w)) with (length (lists w) + 0)%nat at 2 by lia.
    by rewrite insert_app_r.
  - by apply list_lookup_middle.
Qed.

(** Past the two resolutions, the call is the encoding loop, run on a
    store where [self.data] is a new empty list. *)
Lemma encode_unfold pairs (sv tv : vocab_arg) (sm tm : Z) w
    (iv ov : loc) (w1 w2 : world V G) :
  pairs ≠ [] →
  _init_vocab (map fst pairs) sm sv w = (OK iv, w1) →
  _init_vocab (map snd pairs) tm tv (set_self (with_input_vocab (Some iv)) w1)
  = (OK ov, w2) →
  _encode pairs sv tv sm tm w
  = for_each pairs encode_body
      (mkWorld
         (with_data (Some (length (lists w2)))
            (with_output_vocab (Some ov) (self w2)))
         (vocabs w2) (lists w2 ++ [[]]) (rng w2) (log w2)).
Proof.
  intros Hne H1 H2. unfold _encode, bind, lift, modify, new_list.
  by rewrite (zip_star_sources pairs Hne), H1,
    (zip_star_targets pairs Hne), H2.
Qed.

(** The loop stops at its first pair when a vocabulary attribute refers
    to no object of the store. *)
Lemma encode_loop_dangling (pair : sequence * sequence) pairs w
    (iv ov : loc) :
  input_vocab (self w) = Some iv → output_vocab (self w) = Some ov →
  vocabs w !! iv = None ∨ vocabs w !! ov = None →
  ∃ e w', for_each (pair :: pairs) encode_body w = (Raise e, w').
Proof.
  intros Hiv Hov Hnone. cbn [for_each].
  unfold bind at 1. unfold encode_body, bind, attr,
    call_indices_from_sequence, emit.
  rewrite Hiv. destruct (vocabs w !! iv) as [vi|] eqn:Hvi; simpl.
  - destruct Hnone as [|Hvo]; [done|]. rewrite Hov. simpl. rewrite Hvo.
    eauto.
  - eauto.
Qed.

(** A call that completes went through both resolutions, on a
    non-empty list, and resolved both sides to live objects. *)
Lemma encode_inv pairs (sv tv : vocab_arg) (sm tm : Z) w (w' : world V G) :
  _encode pairs sv tv sm tm w = (OK tt, w') →
  pairs ≠ []
  ∧ ∃ iv ov w1 w2 vi vo,
      _init_vocab (map fst pairs) sm sv w = (OK iv, w1)
      ∧ _init_vocab (map snd pairs) tm tv
          (set_self (with_input_vocab (Some iv)) w1) = (OK ov, w2)
      ∧ vocabs w2 !! iv = Some vi ∧ vocabs w2 !! ov = Some vo.
Proof.
  intros Hrun.
  assert (pairs ≠ []) as Hne by (intros ->; discriminate Hrun).
  split; [done|].
  destruct (_init_vocab (map fst pairs) sm sv w) as [[iv|e] w1] eqn:H1;
    [|by rewrite (encode_source_fails _ _ _ _ _ _ _ _ Hne H1) in Hrun].
  destruct (_init_vocab (map snd pairs) tm tv
              (set_self (with_input_vocab (Some iv)) w1))
    as [[ov|e] w2] eqn:H2;
    [|by rewrite (encode_target_fails _ _ _ _ _ _ _ _ _ _ Hne H1 H2) in Hrun].
  exists iv, ov, w1, w2.
  destruct (init_vocab_frame (map snd pairs) tm tv
              (set_self (with_input_vocab (Some iv)) w1))
    as (vs2 & ev2 & F2 & _).
  rewrite H2 in F2. simpl in F2.
  assert (input_vocab (self w2) = Some iv) as Hiv by by rewrite F2.
  destruct (vocabs w2 !! iv) as [vi|] eqn:Hvi,
           (vocabs w2 !! ov) as [vo|] eqn:Hvo; [by eauto 10|exfalso..];
    rewrite (encode_unfold _ _ _ _ _ _ _ _ _ _ Hne H1 H2) in Hrun;
    (destruct pairs as [|pair pairs]; [done|]);
    (edestruct (encode_loop_dangling pair pairs
                 (mkWorld
                    (with_data (Some (length (lists w2)))
                       (with_output_vocab (Some ov) (self w2)))
                    (vocabs w2) (lists w2 ++ [[]]) (rng w2) (log w2))
                 iv ov) as (e & w'' & Hfail);
     [exact Hiv|reflexivity|simpl; auto|]);
    rewrite Hfail in Hrun; discriminate Hrun.
Qed.

(** The store a completed call of [_encode] leaves. *)
Lemma encode_completed pairs (sv tv : vocab_arg) (sm tm : Z) w
    (w' : world V G) :
  _encode pairs sv tv sm tm w = (OK tt, w') →
  ∃ (iv ov : loc) (vi vo : V) (w1 w2 : world V G),
    pairs ≠ []
    ∧ _init_vocab (map fst pairs) sm sv w = (OK iv, w1)
    ∧ _init_vocab (map snd pairs) tm tv
        (set_self (with_input_vocab (Some iv)) w1) = (OK ov, w2)
    ∧ vocabs w2 !! iv = Some vi ∧ vocabs w2 !! ov = Some vo
    ∧ w' = mkWorld
             (with_data (Some (length (lists w)))
                (with_output_vocab (Some ov)
                   (with_input_vocab (Some iv) (self w))))
             (vocabs w2) (lists w ++ [map (encode_pair vi vo) pairs])
             (rng w) (log w2 ++ flat_map (encode_events iv ov) pairs).
Proof.
  intros Hrun.
  destruct (encode_inv _ _ _ _ _ _ _ Hrun)
    as (Hne & iv & ov & w1 & w2 & vi & vo & H1 & H2 & Hvi & Hvo).
  rewrite (encode_ok _ _ _ _ _ _ _ _ _ _ _ _ Hne H1 H2 Hvi Hvo) in Hrun.
  injection Hrun as <-. by exists iv, ov, vi, vo, w1, w2.
Qed.

(** C1.  On a non-empty list of pairs, a call of [_encode] that
    completes went through the resolution of both vocabularies and then
    through the encoding loop: the log is the calls of the resolution,
    none of them an encoding, followed by the encodings of the pairs in
    order; the vocabulary objects are those the resolution left;
    [self.data] holds one encoded pair per input pair, in order, the
    [i]-th being the [i]-th pair seen through [indices_from_sequence] of
    the two vocabularies; and [len(dataset)] is the number of pairs. *)
Theorem encode_data_in_order pairs (sv tv : vocab_arg) (sm tm : Z) w
    (w' : world V G) :
  pairs ≠ [] →
  _encode pairs sv tv sm tm w = (OK tt, w') →
  ∃ (iv ov : loc) (vi vo : V) (w1 w2 : world V G) (evs : list event),
    _init_vocab (map fst pairs) sm sv w = (OK iv, w1)
    ∧ _init_vocab (map snd pairs) tm tv
        (set_self (with_input_vocab (Some iv)) w1) = (OK ov, w2)
    ∧ log w2 = log w ++ evs
    ∧ Forall (λ e, is_encoding e = false) evs
    ∧ log w' = log w2 ++ flat_map (encode_events iv ov) pairs
    ∧ vocabs w' = vocabs w2
    ∧ input_vocab (self w') = Some iv ∧ output_vocab (self w') = Some ov
    ∧ vocabs w' !! iv = Some vi ∧ vocabs w' !! ov = Some vo
    ∧ data_is w' (map (encode_pair vi vo) pairs)
    ∧ (∀ i, map (encode_pair vi vo) pairs !! i
            = encode_pair vi vo <$> pairs !! i)
    ∧ __len__ w' = (OK (Py.len pairs), w').
Proof.
  intros _ Hrun.
  destruct (encode_completed _ _ _ _ _ _ _ Hrun)
    as (iv & ov & vi & vo & w1 & w2 & Hne & H1 & H2 & Hvi & Hvo & ->).
  destruct (init_vocab_frame (map fst pairs) sm sv w)
    as (vs1 & ev1 & F1 & E1).
  rewrite H1 in F1. simpl in F1.
  destruct (init_vocab_frame (map snd pairs) tm tv
              (set_self (with_input_vocab (Some iv)) w1))
    as (vs2 & ev2 & F2 & E2).
  rewrite H2 in F2. simpl in F2.
  match goal with
  | |- context [data_is ?w0 _] =>
      assert (data_is w0 (map (encode_pair vi vo) pairs)) as Hdata
  end.
  { exists (length (lists w)). split; [done|]. simpl.
    by apply list_lookup_middle. }
  exists iv, ov, vi, vo, w1, w2, (ev1 ++ ev2).
  split; [done|]. split; [done|].
  split; [rewrite F2, F1; simpl; by rewrite app_assoc|].
  split; [by apply Forall_app|].
  do 6 (split; [done|]). split; [done|].
  split; [intros i; apply list_lookup_fmap|].
  unfold __len__. rewrite (len_data_is _ _ Hdata).
  unfold Py.len. by rewrite length_map.
Qed.

(** C10.  [_encode] on the empty list of pairs raises [IndexError] at
    [zip( *pairs)[0]] and leaves the store as it found it; so do
    [from_list] and [from_file] when the length filter retains no pair,
    [self] being the new object with its [data] unset; and a call that
    completes was given at least one pair and holds at least one encoded
    pair. *)
Theorem encode_empty_raises (sv tv : vocab_arg) (sm tm : Z) w :
  _encode [] sv tv sm tm w = (Raise IndexError, w)
  ∧ (∀ src tgt sl tl,
       prepare_data_from_list src tgt sl tl = [] →
       from_list src tgt sl tl sv tv sm tm w
       = (Raise IndexError,
          set_self (λ _, mkDataset sl tl None None None) w))
  ∧ (∀ path sl tl,
       prepare_data path sl tl = Some [] →
       from_file path sl tl sv tv sm tm w
       = (Raise IndexError,
          set_self (λ _, mkDataset sl tl None None None) w))
  ∧ (∀ pairs (w' : world V G),
       _encode pairs sv tv sm tm w = (OK tt, w') →
       pairs ≠ [] ∧ ∃ l, data_is w' l ∧ l ≠ []).
Proof.
  split; [reflexivity|]. split; [|split].
  - intros src tgt sl tl Hp. unfold from_list, bind, __init__, modify.
    by rewrite Hp.
  - intros path sl tl Hp. unfold from_file, bind, __init__, modify.
    by rewrite Hp.
  - intros pairs w' Hrun.
    assert (pairs ≠ []) as Hne by (intros ->; discriminate Hrun).
    split; [done|].
    destruct (encode_completed _ _ _ _ _ _ _ Hrun)
      as (iv & ov & vi & vo & w1 & w2 & _ & _ & _ & _ & _ & ->).
    exists (map (encode_pair vi vo) pairs). split; [|by destruct pairs].
    exists (length (lists w)). split; [done|]. simpl.
    by apply list_lookup_middle.
Qed.

(** C9 (amended).  A call of [_encode] whose vocabulary argument for a
    side is neither [None], a [Vocabulary] nor a [str] never completes:
    it raises before any sequence is encoded, without assigning
    [self.data] and without touching a list.  The exception is the
    [AttributeError] of [_init_vocab] when that side's resolution is
    reached and gets past the constructor: the list of pairs is not
    empty, [Vocabulary(max)] is constructed and, for the target side,
    the source side has been resolved.  On the empty list it is the
    [IndexError] of [zip( *pairs)[0]]. *)
Theorem invalid_vocabulary_argument pairs (repr : string)
    (other : vocab_arg) (sm tm : Z) w :
  (∃ e (w' : world V G),
     _encode pairs (VOther repr) other sm tm w = (Raise e, w')
     ∧ self w' = self w ∧ lists w' = lists w
     ∧ (∃ evs, log w' = log w ++ evs
               ∧ Forall (λ e, is_encoding e = false) evs)
     ∧ (pairs ≠ [] → is_Some (Vocabulary sm) → e = AttributeError repr)
     ∧ (pairs = [] → e = IndexError))
  ∧ (∃ e (w' : world V G),
       _encode pairs other (VOther repr) sm tm w = (Raise e, w')
       ∧ data (self w') = data (self w)
       ∧ output_vocab (self w') = output_vocab (self w)
       ∧ lists w' = lists w
       ∧ (∃ evs, log w' = log w ++ evs
                 ∧ Forall (λ e, is_encoding e = false) evs)
       ∧ (pairs ≠ [] → is_Some (Vocabulary tm) →
          (∃ iv w1, _init_vocab (map fst pairs) sm other w = (OK iv, w1)) →
          e = AttributeError repr)
       ∧ (pairs = [] → e = IndexError)).
Proof.
  destruct pairs as [|pair pairs'] eqn:Hp.
  { split; exists IndexError, w; rewrite encode_empty;
      repeat (split; [done|]);
      (split; [exists []; by rewrite app_nil_r|]); done. }
  rewrite <- Hp. assert (pairs ≠ []) as Hne by by rewrite Hp.
  clear Hp. split.
  - destruct (init_vocab_frame (map fst pairs) sm (VOther repr) w)
      as (vs1 & ev1 & F1 & E1).
    destruct (Vocabulary sm) as [v0|] eqn:Hv.
    + pose proof (init_vocab_other (map fst pairs) sm v0 repr w Hv) as H1.
      rewrite H1 in F1. simpl in F1.
      eexists _, _. split; [by apply encode_source_fails|].
      rewrite F1. simpl. repeat (split; [done|]).
      split; [by exists ev1|]. done.
    + pose proof (init_vocab_ctor_fails (map fst pairs) sm (VOther repr) w
                    Hv) as H1.
      rewrite H1 in F1. simpl in F1.
      eexists _, _. split; [by apply encode_source_fails|].
      repeat (split; [done|]).
      split; [exists []; by rewrite app_nil_r|].
      split; [|done]. by intros _ [? ?].
  - destruct (init_vocab_frame (map fst pairs) sm other w)
      as (vs1 & ev1 & F1 & E1).
    destruct (_init_vocab (map fst pairs) sm other w) as [[iv|e] w1] eqn:H1;
      simpl in F1.
    + destruct (init_vocab_frame (map snd pairs) tm (VOther repr)
                  (set_self (with_input_vocab (Some iv)) w1))
        as (vs2 & ev2 & F2 & E2).
      assert (∃ e w2,
                _init_vocab (map snd pairs) tm (VOther repr)
                  (set_self (with_input_vocab (Some iv)) w1) = (Raise e, w2)
                ∧ (is_Some (Vocabulary tm) → e = AttributeError repr))
        as (e & w2 & H2 & He).
      { destruct (Vocabulary tm) as [v0|] eqn:Hv.
        - eexists _, _. split; [by apply init_vocab_other|done].
        - eexists _, _. split; [by apply init_vocab_ctor_fails|].
          by intros [? ?]. }
      rewrite H2 in F2. simpl in F2.
      exists e, w2.
      split; [by eapply encode_target_fails|].
      rewrite F2, F1. simpl. repeat (split; [done|]).
      split; [exists (ev1 ++ ev2); split;
              [by rewrite app_assoc|by apply Forall_app]|].
      split; [|done]. intros _ Hc _. by apply He.
    + exists e, w1. split; [by apply encode_source_fails|].
      rewrite F1. simpl. repeat (split; [done|]).
      split; [by exists ev1|].
      split; [|done]. by intros _ _ (? & ? & ?).
Qed.

(** *** Calls of [trim] in the log *)

Lemma trims_of_app (r : loc) (a b : list event) :
  trims_of r (a ++ b) = trims_of r a ++ trims_of r b.
Proof. apply List.filter_app. Qed.

Lemma trims_of_none (r : loc) (evs : list event) :
  Forall (λ e, mutates r e = false) evs → trims_of r evs = [].
Proof.
  induction 1 as [|e evs He _ IH]; [done|].
  unfold trims_of in *. simpl. rewrite IH.
  destruct e; simpl in *; try done. by rewrite He.
Qed.

Lemma trims_of_build (max_size : Z) (r : loc) (seqs : list sequence) :
  trims_of r (build_events max_size r seqs) = [ETrim r].
Proof.
  unfold build_events.
  change (ENew max_size r :: map (EAddSequence r) seqs ++ [ETrim r])
    with ([ENew max_size r] ++ map (EAddSequence r) seqs ++ [ETrim r]).
  rewrite !trims_of_app.
  assert (trims_of r (map (EAddSequence r) seqs) = []) as ->.
  { unfold trims_of. induction seqs as [|x seqs IH]; [done|]. by simpl. }
  unfold trims_of. simpl. by rewrite Nat.eqb_refl.
Qed.

Lemma encode_events_no_mutation (r iv ov : loc) pairs :
  Forall (λ e, mutates r e = false) (flat_map (encode_events iv ov) pairs).
Proof.
  induction pairs as [|pair pairs IH]; simpl; [done|].
  by do 2 (apply Forall_cons; split; [done|]).
Qed.

(** C8 (amended).  In a call of [_encode] that completes, a side whose
    vocabulary argument is [None] got a new [Vocabulary] of the given
    size, to which every sequence of that side was added with
    [add_sequence], in order, and which was then trimmed: these calls,
    and no other, are what the resolution of that side logs; the object
    holds the trimmed result; the call makes exactly one call of [trim] on
    it; and every encoding comes after the two resolutions. *)
Theorem fresh_vocabulary_built_then_trimmed pairs (sv tv : vocab_arg)
    (sm tm : Z) w (w' : world V G) :
  _encode pairs sv tv sm tm w = (OK tt, w') →
  ∃ (iv ov : loc) (evs_src evs_tgt : list event),
    input_vocab (self w') = Some iv ∧ output_vocab (self w') = Some ov
    ∧ log w'
      = log w ++ evs_src ++ evs_tgt ++ flat_map (encode_events iv ov) pairs
    ∧ Forall (λ e, is_encoding e = false) (evs_src ++ evs_tgt)
    ∧ (sv = VNone →
       ∃ v0, Vocabulary sm = Some v0
         ∧ iv = length (vocabs w)
         ∧ evs_src = build_events sm iv (map fst pairs)
         ∧ vocabs w' !! iv
           = Some (trim (fold_left (λ v s, add_sequence s v)
                           (map fst pairs) v0))
         ∧ trims_of iv
             (evs_src ++ evs_tgt ++ flat_map (encode_events iv ov) pairs)
           = [ETrim iv])
    ∧ (tv = VNone →
       ∃ v0, Vocabulary tm = Some v0
         ∧ ov = S (length (vocabs w))
         ∧ evs_tgt = build_events tm ov (map snd pairs)
         ∧ vocabs w' !! ov
           = Some (trim (fold_left (λ v s, add_sequence s v)
                           (map snd pairs) v0))
         ∧ trims_of ov
             (evs_src ++ evs_tgt ++ flat_map (encode_events iv ov) pairs)
           = [ETrim ov]).
Proof.
  intros Hrun.
  destruct (encode_completed _ _ _ _ _ _ _ Hrun)
    as (iv & ov & vi & vo & w1 & w2 & Hne & H1 & H2 & Hvi & Hvo & ->).
  set (n := length (vocabs w)).
  destruct (init_vocab_uniform (map fst pairs) sm sv n)
    as (res1 & vs1 & ev1 & R1 & E1 & M1 & L1).
  pose proof (R1 w eq_refl) as R1w. rewrite H1 in R1w.
  injection R1w as <- ->.
  destruct (L1 iv eq_refl) as [L1' _].
  destruct (init_vocab_uniform (map snd pairs) tm tv (S n))
    as (res2 & vs2 & ev2 & R2 & E2 & M2 & L2).
  match type of H2 with
  | _init_vocab _ _ _ ?w0 = _ =>
      assert (length (vocabs w0) = S n) as Hlen
        by (simpl; rewrite length_app; unfold n; lia);
      pose proof (R2 w0 Hlen) as R2w
  end.
  rewrite H2 in R2w. injection R2w as <- ->. simpl in *.
  exists iv, ov, ev1, ev2.
  split; [done|]. split; [done|].
  split; [by rewrite <- !app_assoc|].
  split; [by apply Forall_app|].
  split.
  - intros ->. destruct (Vocabulary sm) as [v0|] eqn:Hv;
      [|by rewrite (init_vocab_ctor_fails _ _ _ _ Hv) in H1].
    rewrite (init_vocab_none _ _ _ _ Hv) in H1.
    injection H1 as <- Hvs Hlog.
    apply app_inv_head in Hvs as <-. apply app_inv_head in Hlog as <-.
    exists v0. split; [done|]. split; [done|]. split; [done|].
    split.
    + rewrite lookup_app_l by (rewrite length_app; simpl; lia).
      by apply list_lookup_middle.
    + rewrite !trims_of_app, trims_of_build.
      rewrite (trims_of_none _ ev2), (trims_of_none _ (flat_map _ _)); [done|..].
      * apply encode_events_no_mutation.
      * eapply Forall_impl; [exact M2|]. intros e He. apply He.
        fold n. lia.
  - intros ->. destruct (Vocabulary tm) as [v0|] eqn:Hv;
      [|by rewrite (init_vocab_ctor_fails _ _ _ _ Hv) in H2].
    rewrite (init_vocab_none _ _ _ _ Hv) in H2. simpl in H2.
    injection H2 as <- Hvs Hlog.
    apply app_inv_head in Hvs as <-. apply app_inv_head in Hlog as <-.
    rewrite length_app, L1'. fold n.
    replace (n + 1)%nat with (S n) by lia.
    exists v0. split; [done|]. split; [done|]. split; [done|].
    split.
    + apply list_lookup_middle. rewrite length_app. fold n. lia.
    + rewrite !trims_of_app, trims_of_build.
      rewrite (trims_of_none _ ev1), (trims_of_none _ (flat_map _ _)); [done|..].
      * apply encode_events_no_mutation.
      * eapply Forall_impl; [exact M1|]. intros e He. apply He. lia.
Qed.

(** *** Pre-built vocabularies *)

Lemma lookup_replace_middle {A} (a c : list A) (x y : A) (k : nat) :
  k ≠ length a → ((a ++ [x]) ++ c) !! k = ((a ++ [y]) ++ c) !! k.
Proof.
  intros Hk. destruct (decide (k < length a)%nat) as [Hlt|Hge].
  - rewrite !lookup_app_l by (rewrite ?length_app; simpl; lia). done.
  - rewrite !(lookup_app_r (_ ++ [_])) by (rewrite length_app; simpl; lia).
    by rewrite !length_app.
Qed.

(** The runs of [_encode] on a pre-built source vocabulary [r]: what the
    target side adds to the store and to the log is the same for every
    source size, and so are the objects the two sides resolve to. *)
Lemma prebuilt_source_run pairs (r : loc) (v : V) (other : vocab_arg)
    (tm : Z) w :
  vocabs w !! r = Some v → live w other →
  ∃ (res2 : result loc) (vs2 : list V) (ev2 : list event),
    Forall (λ e, mutates r e = false) ev2
    ∧ ∀ sm (w' : world V G),
        _encode pairs (VInstance r) other sm tm w = (OK tt, w') →
        ∃ v0 ov vo,
          Vocabulary sm = Some v0
          ∧ res2 = OK ov
          ∧ (∀ x, ((vocabs w ++ [x]) ++ vs2) !! ov = Some vo)
          ∧ w' = mkWorld
                   (with_data (Some (length (lists w)))
                      (with_output_vocab (Some ov)
                         (with_input_vocab (Some r) (self w))))
                   ((vocabs w ++ [v0]) ++ vs2)
                   (lists w ++ [map (encode_pair v vo) pairs])
                   (rng w)
                   (((log w ++ [ENew sm (length (vocabs w))]) ++ ev2)
                      ++ flat_map (encode_events r ov) pairs).
Proof.
  intros Hr Hlive.
  pose proof (lookup_lt_Some _ _ _ Hr) as Hrn.
  set (n := length (vocabs w)) in *.
  destruct (init_vocab_uniform (map snd pairs) tm other (S n))
    as (res2 & vs2 & ev2 & R2 & E2 & M2 & L2).
  exists res2, vs2, ev2. split.
  { eapply Forall_impl; [exact M2|]. intros e He. apply He. lia. }
  intros sm w' Hrun.
  destruct (encode_completed _ _ _ _ _ _ _ Hrun)
    as (iv & ov & vi & vo & w1 & w2 & Hne & H1 & H2 & Hvi & Hvo & ->).
  destruct (Vocabulary sm) as [v0|] eqn:Hv;
    [|by rewrite (init_vocab_ctor_fails _ _ _ _ Hv) in H1].
  rewrite (init_vocab_instance _ _ _ _ _ Hv) in H1.
  injection H1 as <- <-.
  match type of H2 with
  | _init_vocab _ _ _ ?w0 = _ =>
      assert (length (vocabs w0) = S n) as Hlen
        by (simpl; rewrite length_app; unfold n; simpl; lia);
      pose proof (R2 w0 Hlen) as R2w
  end.
  rewrite H2 in R2w. injection R2w as <- ->. simpl in *.
  assert (vi = v) as ->.
  { rewrite !lookup_app_l in Hvi by (rewrite ?length_app; simpl; lia).
    congruence. }
  assert (ov ≠ n) as Hov.
  { destruct (L2 ov eq_refl) as [_ [ -> | -> ]]; [|lia].
    simpl in Hlive. apply lookup_lt_is_Some_1 in Hlive. fold n in Hlive.
    lia. }
  exists v0, ov, vo. split; [done|]. split; [done|]. split; [|done].
  intros x. by rewrite (lookup_replace_middle _ _ x v0).
Qed.

(** The same for a pre-built target vocabulary and the target size. *)
Lemma prebuilt_target_run pairs (r : loc) (v : V) (other : vocab_arg)
    (sm : Z) w :
  vocabs w !! r = Some v → live w other →
  ∃ (res1 : result loc) (vs1 : list V) (ev1 : list event),
    Forall (λ e, mutates r e = false) ev1
    ∧ ∀ tm (w' : world V G),
        _encode pairs other (VInstance r) sm tm w = (OK tt, w') →
        ∃ v0 iv vi,
          Vocabulary tm = Some v0
          ∧ res1 = OK iv
          ∧ length vs1 = 1%nat
          ∧ (vocabs w ++ vs1) !! iv = Some vi
          ∧ w' = mkWorld
                   (with_data (Some (length (lists w)))
                      (with_output_vocab (Some r)
                         (with_input_vocab (Some iv) (self w))))
                   ((vocabs w ++ vs1) ++ [v0])
                   (lists w ++ [map (encode_pair vi v) pairs])
                   (rng w)
                   (((log w ++ ev1) ++ [ENew tm (S (length (vocabs w)))])
                      ++ flat_map (encode_events iv r) pairs).
Proof.
  intros Hr Hlive.
  pose proof (lookup_lt_Some _ _ _ Hr) as Hrn.
  set (n := length (vocabs w)) in *.
  destruct (init_vocab_uniform (map fst pairs) sm other n)
    as (res1 & vs1 & ev1 & R1 & E1 & M1 & L1).
  exists res1, vs1, ev1. split.
  { eapply Forall_impl; [exact M1|]. intros e He. apply He. lia. }
  intros tm w' Hrun.
  destruct (encode_completed _ _ _ _ _ _ _ Hrun)
    as (iv & ov & vi & vo & w1 & w2 & Hne & H1 & H2 & Hvi & Hvo & ->).
  pose proof (R1 w eq_refl) as R1w. rewrite H1 in R1w.
  injection R1w as <- ->.
  destruct (L1 iv eq_refl) as [L1' Hiv].
  destruct (Vocabulary tm) as [v0|] eqn:Hv;
    [|by rewrite (init_vocab_ctor_fails _ _ _ _ Hv) in H2].
  rewrite (init_vocab_instance _ _ _ _ _ Hv) in H2. simpl in H2.
  injection H2 as <- <-. simpl in *.
  assert (vo = v) as ->.
  { rewrite !lookup_app_l in Hvo by (rewrite ?length_app; simpl; lia).
    congruence. }
  assert (iv ≤ n)%nat as Hivn.
  { destruct Hiv as [ -> | -> ]; [|lia].
    simpl in Hlive. apply lookup_lt_is_Some_1 in Hlive. fold n in Hlive.
    lia. }
  rewrite lookup_app_l in Hvi by (rewrite length_app; fold n; lia).
  exists v0, iv, vi. split; [done|]. split; [done|]. split; [done|].
  split; [done|]. rewrite length_app, L1'. fold n.
  by replace (n + 1)%nat with (S n) by lia.
Qed.

(** C7 (amended).  In a call of [_encode] that completes, a side whose
    vocabulary argument is a pre-built [Vocabulary] object is resolved to
    that very object; the object is as it was before the call, and the
    call makes no [add_token], [add_sequence] or [trim] call on it; and
    any other completing call that differs in the maximum size of that
    side only leaves the same [self], the same lists and the same
    vocabulary objects, but for the spare object the constructor
    made. *)
Theorem prebuilt_vocabulary_used_as_is pairs (r : loc) (v : V)
    (other : vocab_arg) (sm tm : Z) w (w' : world V G) :
  vocabs w !! r = Some v → live w other →
  (_encode pairs (VInstance r) other sm tm w = (OK tt, w') →
   input_vocab (self w') = Some r
   ∧ vocabs w' !! r = Some v
   ∧ (∃ evs, log w' = log w ++ evs
             ∧ Forall (λ e, mutates r e = false) evs)
   ∧ (∀ sm' (w'' : world V G),
        _encode pairs (VInstance r) other sm' tm w = (OK tt, w'') →
        self w'' = self w' ∧ lists w'' = lists w'
        ∧ ∀ k, k ≠ length (vocabs w) → vocabs w'' !! k = vocabs w' !! k))
  ∧ (_encode pairs other (VInstance r) sm tm w = (OK tt, w') →
     output_vocab (self w') = Some r
     ∧ vocabs w' !! r = Some v
     ∧ (∃ evs, log w' = log w ++ evs
               ∧ Forall (λ e, mutates r e = false) evs)
     ∧ (∀ tm' (w'' : world V G),
          _encode pairs other (VInstance r) sm tm' w = (OK tt, w'') →
          self w'' = self w' ∧ lists w'' = lists w'
          ∧ ∀ k, k ≠ S (length (vocabs w)) →
                 vocabs w'' !! k = vocabs w' !! k)).
Proof.
  intros Hr Hlive.
  pose proof (lookup_lt_Some _ _ _ Hr) as Hrn.
  split.
  - destruct (prebuilt_source_run pairs r v other tm w Hr Hlive)
      as (res2 & vs2 & ev2 & Hmut & Hruns).
    intros Hrun.
    destruct (Hruns sm w' Hrun) as (v0 & ov & vo & Hv & -> & Hlk & ->).
    simpl. split; [done|]. split.
    { rewrite !lookup_app_l by (rewrite ?length_app; simpl; lia). done. }
    split.
    { eexists. split; [by rewrite <- !app_assoc|].
      apply Forall_app. split; [by apply Forall_singleton|].
      apply Forall_app. split; [done|]. apply encode_events_no_mutation. }
    intros sm' w'' Hrun'.
    destruct (Hruns sm' w'' Hrun')
      as (v0' & ov' & vo' & Hv' & [= <-] & Hlk' & ->).
    pose proof (Hlk v0) as E. rewrite (Hlk' v0) in E. injection E as ->.
    simpl. split; [done|]. split; [done|].
    intros k Hk. by apply lookup_replace_middle.
  - destruct (prebuilt_target_run pairs r v other sm w Hr Hlive)
      as (res1 & vs1 & ev1 & Hmut & Hruns).
    intros Hrun.
    destruct (Hruns tm w' Hrun)
      as (v0 & iv & vi & Hv & -> & Hlen & Hlk & ->).
    simpl. split; [done|]. split.
    { rewrite !lookup_app_l by (rewrite ?length_app; simpl; lia). done. }
    split.
    { eexists. split; [by rewrite <- !app_assoc|].
      apply Forall_app. split; [done|].
      apply Forall_app. split; [by apply Forall_singleton|].
      apply encode_events_no_mutation. }
    intros tm' w'' Hrun'.
    destruct (Hruns tm' w'' Hrun')
      as (v0' & iv' & vi' & Hv' & [= <-] & _ & Hlk' & ->).
    rewrite Hlk in Hlk'. injection Hlk' as <-.
    simpl. split; [done|]. split; [done|].
    intros k Hk.
    destruct (decide (k < S (length (vocabs w)))%nat).
    + rewrite (lookup_app_l (vocabs w ++ vs1) [v0]),
        (lookup_app_l (vocabs w ++ vs1) [v0'])
        by (rewrite length_app, Hlen; lia).
      done.
    + rewrite (lookup_app_r (vocabs w ++ vs1) [v0]),
        (lookup_app_r (vocabs w ++ vs1) [v0'])
        by (rewrite length_app, Hlen; lia).
      rewrite length_app, Hlen.
      destruct (k - (length (vocabs w) + 1))%nat eqn:Hd; [lia|done].
Qed.

End Encoding.

(** * Runs on the instance

    The theorems above hold for every implementation of the collaborators.
    The lemmas below apply them to the instance [Model], on the corpus of
    ten pairs, and record the runs on which a statement of the
    specification does not hold as it is worded. *)

Section Runs.
Import Model.

Lemma world10_completes :
  _encode raw10 VNone VNone 50000 50000 (empty_world 0) = (OK tt, world10).
Proof. vm_compute. reflexivity. Defined.

Lemma world10_data : data_is world10 data10.
Proof. exists 0%nat. split; vm_compute; reflexivity. Defined.

(** C1 on the corpus of ten pairs. *)
Lemma encode_data_in_order_witness :
  raw10 ≠ []
  ∧ _encode raw10 VNone VNone 50000 50000 (empty_world 0) = (OK tt, world10)
  ∧ __len__ world10 = (OK 10, world10).
Proof.
  assert (raw10 ≠ []) as Hne by discriminate.
  split; [exact Hne|]. split; [exact world10_completes|].
  destruct (encode_data_in_order raw10 VNone VNone 50000 50000
              (empty_world 0) world10 Hne world10_completes)
    as (iv & ov & vi & vo & w1 & w2 & evs & _ & _ & _ & _ & _ & _ & _ & _
        & _ & _ & _ & _ & Hlen).
  exact Hlen.
Defined.

(** C2 on the corpus of ten pairs: four batches of at most three. *)
Lemma num_batches_is_ceil_witness :
  data_is world10 data10 ∧ 1 ≤ 3
  ∧ num_batches 3 world10 = (OK 4, world10).
Proof.
  split; [exact world10_data|]. split; [lia|].
  destruct (num_batches_is_ceil world10 data10 3 world10_data ltac:(lia))
    as (_ & _ & H).
  apply H; reflexivity.
Defined.

(** C3 on the corpus of ten pairs: batch size 11 overflows. *)
Lemma make_batches_overflow_iff_witness :
  data_is world10 data10 ∧ 1 ≤ 11
  ∧ next (make_batches 11) world10
    = (Raise (OverflowError 11 10), GenDone, world10).
Proof.
  split; [exact world10_data|]. split; [lia|].
  destruct (make_batches_overflow_iff world10 data10 11 world10_data
              ltac:(lia)) as (_ & _ & H).
  apply H; reflexivity.
Defined.

(** C4 on the corpus of ten pairs: batches of size 3, 3, 3 and 1. *)
Lemma make_batches_consecutive_chunks_witness :
  data_is world10 data10 ∧ 1 ≤ 3 ≤ Py.len data10
  ∧ iter_next 5 (make_batches 3) world10
    = (map (λ k, OK (chunk 3 data10 k)) (seq 0 4) ++ [Raise StopIteration],
       GenDone, world10).
Proof.
  assert (1 ≤ 3 ≤ Py.len data10) as Hb by (vm_compute; split; discriminate).
  split; [exact world10_data|]. split; [exact Hb|].
  destruct (make_batches_consecutive_chunks world10 data10 3 world10_data
              Hb) as (_ & H & _).
  exact H.
Defined.

(** C5: two stores with the generator in different states, the same
    seed. *)
Lemma shuffle_seed_deterministic_witness :
  data_is world10 data10
  ∧ data_is (set_rng (λ _, 7) world10) data10
  ∧ ∃ l', data_is (snd (shuffle (Some 42) world10)) l'
          ∧ data_is (snd (shuffle (Some 42) (set_rng (λ _, 7) world10))) l'.
Proof.
  assert (data_is (set_rng (λ _, 7) world10) data10) as Hd2
    by (exists 0%nat; split; vm_compute; reflexivity).
  split; [exact world10_data|]. split; [exact Hd2|].
  destruct (shuffle_seed_deterministic world10 (set_rng (λ _, 7) world10)
              data10 42 world10_data Hd2) as (_ & H).
  apply H. reflexivity.
Defined.

(** C6 on the corpus of ten pairs, without a seed. *)
Lemma shuffle_is_permutation_witness :
  data (self world10) = Some 0%nat
  ∧ lists world10 !! 0%nat = Some data10
  ∧ ∃ l' g',
      shuffle None world10
      = (OK tt,
         mkWorld (self world10) (vocabs world10)
           (<[0%nat := l']> (lists world10)) g' (log world10))
      ∧ l' ≡ₚ data10.
Proof.
  assert (data (self world10) = Some 0%nat) as Hd
    by (vm_compute; reflexivity).
  assert (lists world10 !! 0%nat = Some data10) as Hl
    by (vm_compute; reflexivity).
  split; [exact Hd|]. split; [exact Hl|].
  destruct (shuffle_is_permutation world10 data10 0 None Hd Hl)
    as (l' & g' & Hrun & Hp & _).
  exists l', g'. split; [exact Hrun|exact Hp].
Defined.

(** C7: the two vocabularies of [world10] handed over to a new dataset;
    the source one is installed. *)
Lemma prebuilt_vocabulary_used_as_is_witness :
  ∃ v,
    vocabs world_prebuilt !! 0%nat = Some v
    ∧ live world_prebuilt (VInstance 1)
    ∧ input_vocab
        (self (snd (_encode raw10 (VInstance 0) (VInstance 1) 50000 50000
                      world_prebuilt)))
      = Some 0%nat.
Proof.
  eexists. split; [vm_compute; reflexivity|].
  assert (live world_prebuilt (VInstance 1)) as Hlive
    by (eexists; vm_compute; reflexivity).
  split; [exact Hlive|].
  refine (proj1 (proj1 (prebuilt_vocabulary_used_as_is raw10 0 _
                          (VInstance 1) 50000 50000 world_prebuilt _
                          _ Hlive) _)).
  - vm_compute. reflexivity.
  - vm_compute. reflexivity.
Defined.

(** C7, as worded, fails on the empty list: the pre-built object is a
    live object of the store, the call raises [IndexError] and leaves
    [self.input_vocab] unset. *)
Lemma prebuilt_not_installed_on_empty_list :
  is_Some (vocabs world_prebuilt !! 0%nat)
  ∧ fst (_encode [] (VInstance 0) (VInstance 1) 50000 50000 world_prebuilt)
    = Raise IndexError
  ∧ input_vocab
      (self (snd (_encode [] (VInstance 0) (VInstance 1) 50000 50000
                    world_prebuilt)))
    = None.
Proof. split; [eexists; vm_compute; reflexivity|]. split; reflexivity. Qed.

(** The constructor call that precedes the dispatch in [_init_vocab]: with
    the constructor of the instance, a source size below the number of
    reserved symbols stops the call although the source vocabulary is
    pre-built, and the default size does not. *)
Example prebuilt_rejected_by_constructor :
  fst (_encode raw10 (VInstance 0) (VInstance 1) 0 50000 world_prebuilt)
  = Raise (ConfigurationError 0)
  ∧ fst (_encode raw10 (VInstance 0) (VInstance 1) 50000 50000
           world_prebuilt)
    = OK tt.
Proof. split; vm_compute; reflexivity. Qed.

(** C8 on the corpus of ten pairs: one [trim] on the source
    vocabulary. *)
Lemma fresh_vocabulary_built_then_trimmed_witness :
  _encode raw10 VNone VNone 50000 50000 (empty_world 0) = (OK tt, world10)
  ∧ trims_of 0 (log world10) = [ETrim 0].
Proof.
  split; [exact world10_completes|].
  destruct (fresh_vocabulary_built_then_trimmed raw10 VNone VNone 50000
              50000 (empty_world 0) world10 world10_completes)
    as (iv & ov & e1 & e2 & _ & _ & Hlog & _ & Hsrc & _).
  destruct (Hsrc eq_refl) as (v0 & _ & Hiv & _ & _ & Htr).
  rewrite Hlog. subst iv. exact Htr.
Defined.

(** C8, as worded, fails on the empty list: both arguments are [None],
    the call raises [IndexError], and the store holds no vocabulary and
    no call afterwards. *)
Lemma no_vocabulary_on_empty_list :
  _encode [] VNone VNone 50000 50000 (empty_world 0)
  = (Raise IndexError, empty_world 0)
  ∧ vocabs (empty_world 0) = []
  ∧ log (empty_world 0) = [].
Proof. repeat split. Qed.

(** C9 on the corpus of ten pairs: an integer as source vocabulary. *)
Lemma invalid_vocabulary_argument_witness :
  ∃ w',
    _encode raw10 (VOther "42") VNone 50000 50000 (empty_world 0)
    = (Raise (AttributeError "42"), w').
Proof.
  destruct (invalid_vocabulary_argument raw10 "42" VNone 50000 50000
              (empty_world 0))
    as [(e & w' & Hrun & _ & _ & _ & He & _) _].
  exists w'. rewrite <- (He ltac:(discriminate) ltac:(by eexists)).
  exact Hrun.
Defined.

(** C9, as worded, fails on the empty list: the exception is the
    [IndexError] of [zip( *pairs)[0]], not an [AttributeError]. *)
Lemma invalid_argument_on_empty_list :
  fst (_encode [] (VOther "42") VNone 50000 50000 (empty_world 0))
  = Raise IndexError
  ∧ ∀ what,
      fst (_encode [] (VOther "42") VNone 50000 50000 (empty_world 0))
      ≠ Raise (AttributeError what).
Proof. split; [reflexivity|]. intros what. discriminate. Qed.

(** C10: a corpus whose only pair is too long, and the empty corpus
    file. *)
Lemma encode_empty_raises_witness :
  from_list [["a"; "b"; "c"]] [["x"]] 2 2 VNone VNone 50000 50000
    (empty_world 0)
  = (Raise IndexError,
     set_self (λ _, mkDataset 2 2 None None None) (empty_world 0))
  ∧ from_file "empty.tsv" 10 10 VNone VNone 50000 50000 (empty_world 0)
    = (Raise IndexError,
       set_self (λ _, mkDataset 10 10 None None None) (empty_world 0)).
Proof.
  destruct (encode_empty_raises VNone VNone 50000 50000 (empty_world 0))
    as (_ & Hlist & Hfile & _).
  split.
  - apply Hlist. vm_compute. reflexivity.
  - apply Hfile. vm_compute. reflexivity.
Defined.

End Runs.

(** * Further properties of the batch iterator *)

Section BatchEdges.
Context {V G : Type} `{!VocabularyAPI V} `{!UtilsAPI} `{!RandomAPI G}.
Implicit Types (w : world V G) (l : list (ids * ids)).

(** Cutting a list into [nb] chunks of [bn] items and gluing them gives the
    list back when the chunks reach its end. *)
Lemma chunks_concat {A} (bn nb : nat) (xs : list A) :
  (length xs ≤ nb * bn)%nat →
  concat (map (λ k, take bn (drop (k * bn) xs)) (seq 0 nb)) = xs.
Proof.
  revert xs. induction nb as [|nb IH]; intros xs Hlen.
  - destruct xs; [done|simpl in Hlen; lia].
  - rewrite seq_map_succ. cbn [concat]. rewrite Nat.mul_0_l, drop_0.
    etrans; [|apply (take_drop bn xs)]. f_equal.
    etrans; [|apply (IH (drop bn xs)); rewrite length_drop; lia].
    f_equal. apply map_ext. intros k. by rewrite drop_drop.
Qed.

Lemma ceil_div_small (n b : Z) : 1 ≤ n < b → ceil_div n b = 1.
Proof.
  intros Hn. pose proof (ceil_div_spec n b ltac:(lia)). nia.
Qed.

(** X1.  When [1 <= b <= len(data)], the batches [make_batches(b)] yields
    before it stops, glued together, are [data]: the sources of the batches
    in order are the sources of [data] and the targets are the targets, no
    pair lost, repeated or moved. *)
Theorem make_batches_cover_data w l (b : Z) :
  data_is w l → 1 ≤ b ≤ Py.len l →
  ∃ batches : list batch,
    fst (fst (iter_next (S (length batches)) (make_batches b) w))
    = map OK batches ++ [Raise StopIteration]
    ∧ Z.of_nat (length batches) = ceil_div (Py.len l) b
    ∧ concat (map fst batches) = map fst l
    ∧ concat (map snd batches) = map snd l.
Proof.
  intros Hd Hb.
  set (nb := Z.to_nat (ceil_div (Py.len l) b)).
  set (bn := Z.to_nat b).
  pose proof (ceil_div_spec (Py.len l) b ltac:(lia)) as Hc.
  pose proof (ceil_div_nonneg (Py.len l) b ltac:(lia) ltac:(unfold Py.len; lia))
    as Hnn.
  assert (length l ≤ nb * bn)%nat as Hcover by (unfold Py.len in *; nia).
  exists (map (chunk bn l) (seq 0 nb)).
  rewrite length_map, length_seq.
  split; [|split; [lia|split]].
  - replace (S nb) with (nb + 1)%nat by lia.
    pose proof (iter_next_make_batches w l b 0 Hd ltac:(lia)) as HM.
    cbv zeta in HM. fold nb bn in HM. rewrite HM. simpl.
    by rewrite map_map.
  - rewrite map_map. unfold chunk. simpl.
    rewrite <- (chunks_concat bn nb (map fst l))
      by (by rewrite length_map).
    f_equal. apply map_ext. intros k.
    by rewrite <- firstn_map, <- skipn_map.
  - rewrite map_map. unfold chunk. simpl.
    rewrite <- (chunks_concat bn nb (map snd l))
      by (by rewrite length_map).
    f_equal. apply map_ext. intros k.
    by rewrite <- firstn_map, <- skipn_map.
Qed.

(** X2.  When the batch size exceeds a non-empty [data], [num_batches]
    and [make_batches] disagree: [num_batches(b)] returns 1, the one short
    chunk of the partition, while [make_batches(b)] raises [OverflowError]
    and never yields that chunk. *)
Theorem num_batches_counts_refused_batch w l (b : Z) :
  data_is w l → 1 ≤ Py.len l < b →
  num_batches b w = (OK 1, w)
  ∧ next (make_batches b) w = (Raise (OverflowError b (Py.len l)), GenDone, w)
  ∧ ∀ k r, r ∈ fst (fst (iter_next k (make_batches b) w)) → ∀ x, r ≠ OK x.
Proof.
  intros Hd Hb. split; [|split].
  - rewrite (num_batches_spec w l b Hd) by lia.
    by rewrite ceil_div_small.
  - cbn [make_batches next].
    by rewrite (prologue_overflow w l b Hd ltac:(lia)).
  - intros [|k] r Hin x ->; [by apply not_elem_of_nil in Hin|].
    rewrite (iter_next_overflow w l b k Hd ltac:(lia)) in Hin. simpl in Hin.
    apply elem_of_cons in Hin as [Hin|Hin]; [done|].
    apply list_elem_of_In, repeat_spec in Hin. done.
Qed.

(** X3.  [num_batches] on an encoded dataset with a batch size that is
    not positive: 0 is refused by [range] with a [ValueError], and a
    negative size gives the count 0. *)
Theorem num_batches_nonpositive w l (b : Z) :
  data_is w l →
  (b = 0 → num_batches b w = (Raise ValueError, w))
  ∧ (b < 0 → num_batches b w = (OK 0, w)).
Proof.
  intros Hd. split.
  - intros ->. unfold num_batches, bind, lift.
    by rewrite (len_data_is w l Hd).
  - intros Hb. unfold num_batches, bind, lift, ret.
    rewrite (len_data_is w l Hd). unfold Py.range.
    destruct (Z.eqb_spec b 0); [lia|]. destruct (Z.ltb_spec 0 b); [lia|].
    replace (Z.to_nat (0 - Py.len l)) with 0%nat by (unfold Py.len; lia).
    done.
Qed.

(** X4.  [make_batches] on an encoded dataset with a batch size that is
    not positive never raises [OverflowError]: with 0 the first [next]
    raises the [ValueError] of [range], with a negative size the loop has
    nothing to visit and the generator stops at once; no batch is
    yielded. *)
Theorem make_batches_nonpositive w l (b : Z) :
  data_is w l →
  (b = 0 → next (make_batches b) w = (Raise ValueError, GenDone, w))
  ∧ (b < 0 → next (make_batches b) w = (Raise StopIteration, GenDone, w)).
Proof.
  intros Hd. split.
  - intros ->. cbn [make_batches next]. unfold batches_prologue, bind, lift.
    rewrite (len_data_is w l Hd).
    destruct (Z.ltb_spec (Py.len l) 0); [unfold Py.len in *; lia|].
    by rewrite (len_data_is w l Hd).
  - intros Hb. cbn [make_batches next]. unfold batches_prologue, bind, lift.
    rewrite (len_data_is w l Hd).
    destruct (Z.ltb_spec (Py.len l) b); [unfold Py.len in *; lia|].
    rewrite (len_data_is w l Hd). unfold Py.range.
    destruct (Z.eqb_spec b 0); [lia|]. destruct (Z.ltb_spec 0 b); [lia|].
    replace (Z.to_nat (0 - Py.len l)) with 0%nat by (unfold Py.len; lia).
    done.
Qed.

(** X5.  A dataset as [__init__] leaves it has no data: [len(dataset)]
    and [num_batches] raise [TypeError], and so does the first [next] of
    [make_batches], for every batch size; the store is left alone. *)
Theorem unencoded_dataset_has_no_length (src_max_len tgt_max_len b : Z) w :
  let w0 := snd (__init__ src_max_len tgt_max_len w) in
  self w0 = mkDataset src_max_len tgt_max_len None None None
  ∧ __len__ w0 = (Raise TypeError, w0)
  ∧ num_batches b w0 = (Raise TypeError, w0)
  ∧ next (make_batches b) w0 = (Raise TypeError, GenDone, w0).
Proof. done. Qed.

(** X6.  A generator started on one content of [data] keeps the indices
    it computed at its first step and reads [self.data] again at every
    later step: if the store is changed in between, by [shuffle] for
    instance, the remaining batches are the chunks of the new content at
    the old positions. *)
Theorem generator_reads_current_data w (w' : world V G) l l' (b : Z) :
  data_is w l → 1 ≤ b ≤ Py.len l → data_is w' l' →
  ∃ g1 nb,
    next (make_batches b) w = (OK (chunk (Z.to_nat b) l 0), g1, w)
    ∧ Z.of_nat (S nb) = ceil_div (Py.len l) b
    ∧ iter_next (S nb) g1 w'
      = (map (λ k, OK (chunk (Z.to_nat b) l' k)) (seq 1 nb)
           ++ [Raise StopIteration],
         GenDone, w').
Proof.
  intros Hd Hb Hd'.
  pose proof (ceil_div_spec (Py.len l) b ltac:(lia)) as Hc.
  assert (1 ≤ ceil_div (Py.len l) b) as Hpos by nia.
  set (bn := Z.to_nat b).
  assert (Z.of_nat bn = b) as Hbn by (unfold bn; lia).
  exists (GenLoop b (map (λ k, Z.of_nat k * b)
                       (seq 1 (Z.to_nat (ceil_div (Py.len l) b) - 1)))),
    (Z.to_nat (ceil_div (Py.len l) b) - 1)%nat.
  split; [|split; [lia|]].
  - cbn [make_batches next]. rewrite (prologue_range w l b Hd ltac:(lia)).
    replace (Z.to_nat (ceil_div (Py.len l) b))
      with (S (Z.to_nat (ceil_div (Py.len l) b) - 1)) at 1 by lia.
    cbn [seq map batches_loop].
    pose proof (batches_body_chunk w l bn 0 Hd ltac:(lia)) as HB.
    rewrite Hbn in HB. simpl in HB. simpl. by rewrite HB.
  - set (nb := (Z.to_nat (ceil_div (Py.len l) b) - 1)%nat).
    replace (S nb) with (nb + 1)%nat by lia. rewrite iter_next_add.
    pose proof (iter_next_loop nb 1 bn w' l' Hd' ltac:(lia)) as HL.
    rewrite Hbn in HL. rewrite HL.
    cbn [iter_next next batches_loop]. done.
Qed.

End BatchEdges.

(** * Further properties of [shuffle] *)

Section ShuffleEdges.
Context {V G : Type} `{!VocabularyAPI V} `{!UtilsAPI} `{!RandomAPI G}.
Implicit Types (w : world V G) (l : list (ids * ids)).

(** X7.  [shuffle] on a dataset whose [data] is still [None] raises
    [TypeError], but only after the seed, when one is given, has been
    installed in the module-level generator: the failed call has reseeded
    it.  Nothing else changes. *)
Theorem shuffle_unencoded_reseeds w (seed : option Z) :
  data (self w) = None →
  shuffle seed w
  = (Raise TypeError,
     mkWorld (self w) (vocabs w) (lists w) (state_after_seed seed (rng w))
       (log w)).
Proof.
  intros Hd. unfold shuffle, bind, data_ref.
  destruct seed as [n|]; simpl; rewrite Hd; [done|]. by destruct w.
Qed.

(** X8.  On a [data] of at most one pair [shuffle] draws no random
    number and leaves the list as it is: the only effect of the call is
    that of [random.seed], when a seed is given. *)
Theorem shuffle_short_list w l (seed : option Z) :
  data_is w l → (length l ≤ 1)%nat →
  shuffle seed w
  = (OK tt,
     mkWorld (self w) (vocabs w) (lists w) (state_after_seed seed (rng w))
       (log w)).
Proof.
  intros (r & Hd & Hl) Hlen. unfold shuffle, bind, data_ref.
  assert (seq 1 (length l - 1) = []) as Hseq
    by (replace (length l - 1)%nat with 0%nat by lia; done).
  destruct seed as [n|]; simpl; rewrite Hd;
    unfold random_shuffle, bind, read_list; simpl; rewrite Hl, Hseq; simpl;
    [done|by destruct w].
Qed.

(** X9.  [shuffle] changes neither the length of the dataset nor the
    number of batches: after the call [len(dataset)] is what it was, and
    [num_batches] returns what it returned before, for every batch
    size. *)
Theorem shuffle_keeps_counts w l (seed : option Z) :
  data_is w l →
  ∃ w' : world V G,
    shuffle seed w = (OK tt, w')
    ∧ __len__ w' = (OK (Py.len l), w')
    ∧ ∀ b, fst (num_batches b w') = fst (num_batches b w).
Proof.
  intros Hd. pose proof Hd as (r & Hr & Hl).
  destruct (shuffle_ok (V:=V) l (state_after_seed seed (rng w)) seed)
    as (l' & g' & Hp & Hf).
  eexists. split; [by apply (Hf w r)|].
  match goal with
  | |- __len__ ?w0 = _ ∧ _ => assert (data_is w0 l') as Hd'
  end.
  { exists r. split; [done|]. simpl. apply list_lookup_insert_eq.
    by eapply lookup_lt_Some. }
  assert (Py.len l' = Py.len l) as Hlen
    by (unfold Py.len; by rewrite (Permutation_length Hp)).
  split.
  - unfold __len__. by rewrite (len_data_is _ _ Hd'), Hlen.
  - intros b. unfold num_batches, bind.
    rewrite (len_data_is _ _ Hd'), (len_data_is _ _ Hd), Hlen.
    unfold lift, ret. by destruct (Py.range 0 (Py.len l) b).
Qed.

End ShuffleEdges.

(** * Further properties of [_encode] and of the constructors *)

Section EncodeEdges.
Context {V G : Type} `{!VocabularyAPI V} `{!UtilsAPI} `{!RandomAPI G}.
Implicit Types (w : world V G) (pairs : list (sequence * sequence)).

(** One round of the encoding loop, whatever its outcome, writes to the
    list [self.data] refers to and to nothing else. *)
Lemma encode_body_frame (pair : sequence * sequence) w :
  self (snd (encode_body pair w)) = self w
  ∧ vocabs (snd (encode_body pair w)) = vocabs w
  ∧ rng (snd (encode_body pair w)) = rng w
  ∧ length (lists (snd (encode_body pair w))) = length (lists w)
  ∧ ∀ k, data (self w) ≠ Some k →
         lists (snd (encode_body pair w)) !! k = lists w !! k.
Proof.
  unfold encode_body, bind, attr, call_indices_from_sequence, list_append,
    bind, read_list, write_list, modify, emit, set_lists.
  destruct (input_vocab (self w)) as [iv|]; simpl; [|done].
  destruct (vocabs w !! iv) as [vi|]; simpl; [|done].
  destruct (output_vocab (self w)) as [ov|]; simpl; [|done].
  destruct (vocabs w !! ov) as [vo|]; simpl; [|done].
  destruct (data (self w)) as [d|]; simpl; [|done].
  destruct (lists w !! d) as [acc|]; simpl; [|done].
  repeat (split; [done|]). split; [by rewrite length_insert|].
  intros k Hk. apply list_lookup_insert_ne. congruence.
Qed.

Lemma encode_loop_frame pairs w :
  self (snd (for_each pairs encode_body w)) = self w
  ∧ vocabs (snd (for_each pairs encode_body w)) = vocabs w
  ∧ rng (snd (for_each pairs encode_body w)) = rng w
  ∧ length (lists (snd (for_each pairs encode_body w))) = length (lists w)
  ∧ ∀ k, data (self w) ≠ Some k →
         lists (snd (for_each pairs encode_body w)) !! k = lists w !! k.
Proof.
  revert w. induction pairs as [|pair pairs IH]; intros w; [done|].
  cbn [for_each]. unfold bind.
  destruct (encode_body_frame pair w) as (Hs & Hv & Hg & Hn & Hl).
  destruct (encode_body pair w) as [[[]|e] w1]; simpl in *; [|done].
  destruct (IH w1) as (Hs' & Hv' & Hg' & Hn' & Hl').
  rewrite Hs', Hv', Hg', Hn', Hs, Hv, Hg, Hn. repeat (split; [done|]).
  intros k Hk. rewrite Hl' by (by rewrite Hs). by apply Hl.
Qed.

(** X10.  Whatever its arguments and its outcome, [_encode] leaves alone
    every vocabulary object and every list object that existed before the
    call, the random generator and the two length caps of [self]: it only
    adds objects to the store.  A dataset encoded earlier, or a vocabulary
    shared with another dataset, is not affected by the call, even by one
    that fails. *)
Theorem encode_preserves_existing_objects pairs (sv tv : vocab_arg)
    (sm tm : Z) w :
  rng (snd (_encode pairs sv tv sm tm w)) = rng w
  ∧ src_max_len (self (snd (_encode pairs sv tv sm tm w)))
    = src_max_len (self w)
  ∧ tgt_max_len (self (snd (_encode pairs sv tv sm tm w)))
    = tgt_max_len (self w)
  ∧ (∀ k, (k < length (vocabs w))%nat →
          vocabs (snd (_encode pairs sv tv sm tm w)) !! k = vocabs w !! k)
  ∧ (∀ k, (k < length (lists w))%nat →
          lists (snd (_encode pairs sv tv sm tm w)) !! k = lists w !! k).
Proof.
  destruct (decide (pairs = [])) as [->|Hne]; [done|].
  destruct (init_vocab_frame (map fst pairs) sm sv w) as (vs1 & ev1 & F1 & _).
  destruct (_init_vocab (map fst pairs) sm sv w) as [[iv|e] w1] eqn:H1;
    simpl in F1.
  2:{ rewrite (encode_source_fails _ _ _ _ _ _ _ _ Hne H1). rewrite F1. simpl.
      repeat (split; [done|]).
      split; [intros k Hk; by apply lookup_app_l|done]. }
  destruct (init_vocab_frame (map snd pairs) tm tv
              (set_self (with_input_vocab (Some iv)) w1))
    as (vs2 & ev2 & F2 & _).
  destruct (_init_vocab (map snd pairs) tm tv
              (set_self (with_input_vocab (Some iv)) w1))
    as [[ov|e] w2] eqn:H2; simpl in F2.
  2:{ rewrite (encode_target_fails _ _ _ _ _ _ _ _ _ _ Hne H1 H2).
      rewrite F2, F1. simpl. repeat (split; [done|]).
      split; [|done]. intros k Hk.
      rewrite !lookup_app_l by (rewrite ?length_app; lia). done. }
  rewrite (encode_unfold _ _ _ _ _ _ _ _ _ _ Hne H1 H2).
  rewrite F2, F1. simpl.
  match goal with
  | |- context [for_each pairs encode_body ?w0] =>
      destruct (encode_loop_frame pairs w0) as (Hs & Hv & Hg & Hn & Hl)
  end.
  simpl in Hs, Hv, Hg, Hn, Hl. rewrite Hs, Hv, Hg. simpl.
  repeat (split; [done|]). split.
  - intros k Hk. rewrite !lookup_app_l by (rewrite ?length_app; lia). done.
  - intros k Hk. rewrite Hl by (intros [= ?]; lia). by apply lookup_app_l.
Qed.

(** X11.  [_encode] is not atomic.  With a source argument [None] and a
    target argument of an unsupported type, on a non-empty list and with
    sizes the constructor accepts, the call raises [AttributeError] after
    the source vocabulary has been built, trimmed and assigned to
    [self.input_vocab]; [self.output_vocab] and [self.data] are as they
    were. *)
Theorem encode_fails_half_initialised pairs (repr : string) (sm tm : Z)
    (v0 v1 : V) w :
  pairs ≠ [] → Vocabulary sm = Some v0 → Vocabulary tm = Some v1 →
  ∃ w' : world V G,
    _encode pairs VNone (VOther repr) sm tm w = (Raise (AttributeError repr), w')
    ∧ input_vocab (self w') = Some (length (vocabs w))
    ∧ vocabs w' !! length (vocabs w)
      = Some (trim (fold_left (λ v s, add_sequence s v) (map fst pairs) v0))
    ∧ output_vocab (self w') = output_vocab (self w)
    ∧ data (self w') = data (self w)
    ∧ lists w' = lists w.
Proof.
  intros Hne Hv0 Hv1.
  pose proof (init_vocab_none (map fst pairs) sm v0 w Hv0) as H1.
  match type of H1 with
  | _ = (_, ?w1) =>
      pose proof (init_vocab_other (map snd pairs) tm v1 repr
                    (set_self (with_input_vocab (Some (length (vocabs w)))) w1)
                    Hv1) as H2
  end.
  eexists. split; [exact (encode_target_fails _ _ _ _ _ _ _ _ _ _ Hne H1 H2)|].
  simpl. split; [done|]. split; [|done].
  rewrite lookup_app_l by (rewrite length_app; simpl; lia).
  by apply list_lookup_middle.
Qed.

(** A side resolves, to an object of the store, when its argument is
    [None] or an object of the store and the constructor accepts the
    size. *)
Lemma init_vocab_succeeds (seqs : list sequence) (max_size : Z) (v0 : V)
    (arg : vocab_arg) w :
  Vocabulary max_size = Some v0 →
  arg = VNone ∨ (∃ r, arg = VInstance r ∧ (r < length (vocabs w))%nat) →
  ∃ (r : loc) (x : V) (evs : list event),
    _init_vocab seqs max_size arg w
    = (OK r,
       mkWorld (self w) (vocabs w ++ [x]) (lists w) (rng w) (log w ++ evs))
    ∧ (r ≤ length (vocabs w))%nat.
Proof.
  intros Hv [->|(r & -> & Hr)].
  - eexists _, _, _. split; [by apply init_vocab_none|done].
  - eexists _, _, _. split; [by apply init_vocab_instance|lia].
Qed.

(** X12.  When each vocabulary argument is [None] or a [Vocabulary]
    object of the store, [_encode] completes exactly when the list of
    pairs is not empty and the constructor accepts both maximum sizes,
    also the size of a side whose vocabulary is pre-built. *)
Theorem encode_completes_iff pairs (sv tv : vocab_arg) (sm tm : Z) w :
  sv = VNone ∨ (∃ r, sv = VInstance r ∧ (r < length (vocabs w))%nat) →
  tv = VNone ∨ (∃ r, tv = VInstance r ∧ (r < length (vocabs w))%nat) →
  (∃ w' : world V G, _encode pairs sv tv sm tm w = (OK tt, w'))
  ↔ pairs ≠ [] ∧ is_Some (Vocabulary sm) ∧ is_Some (Vocabulary tm).
Proof.
  intros Hsv Htv. split.
  - intros (w' & Hrun).
    destruct (encode_inv _ _ _ _ _ _ _ Hrun)
      as (Hne & iv & ov & w1 & w2 & vi & vo & H1 & H2 & _).
    split; [done|]. split.
    + destruct (Vocabulary sm) eqn:Hv; [by eexists|].
      by rewrite (init_vocab_ctor_fails _ _ _ _ Hv) in H1.
    + destruct (Vocabulary tm) eqn:Hv; [by eexists|].
      by rewrite (init_vocab_ctor_fails _ _ _ _ Hv) in H2.
  - intros (Hne & [v0 Hv0] & [v1 Hv1]).
    destruct (init_vocab_succeeds (map fst pairs) sm v0 sv w Hv0 Hsv)
      as (iv & x1 & ev1 & H1 & Hiv).
    match type of H1 with
    | _ = (_, ?w1) =>
        destruct (init_vocab_succeeds (map snd pairs) tm v1 tv
                    (set_self (with_input_vocab (Some iv)) w1) Hv1)
          as (ov & x2 & ev2 & H2 & Hov)
    end.
    { simpl. rewrite length_app. simpl.
      destruct Htv as [->|(r & -> & Hr)]; [by left|right].
      exists r. split; [done|lia]. }
    simpl in H2, Hov. rewrite length_app in Hov. simpl in Hov.
    destruct (lookup_lt_is_Some_2 ((vocabs w ++ [x1]) ++ [x2]) iv) as [vi Hvi];
      [rewrite !length_app; simpl; lia|].
    destruct (lookup_lt_is_Some_2 ((vocabs w ++ [x1]) ++ [x2]) ov) as [vo Hvo];
      [rewrite !length_app; simpl; lia|].
    eexists. by eapply (encode_ok _ _ _ _ _ _ _ _ _ _ vi vo Hne H1 H2).
Qed.

(** X13.  One pre-built vocabulary given for both sides is installed on
    both: [self.input_vocab] and [self.output_vocab] are the same object,
    and every pair is encoded, source and target, through it. *)
Theorem encode_shared_vocabulary pairs (r : loc) (v v0 v1 : V) (sm tm : Z) w :
  pairs ≠ [] → vocabs w !! r = Some v →
  Vocabulary sm = Some v0 → Vocabulary tm = Some v1 →
  ∃ w' : world V G,
    _encode pairs (VInstance r) (VInstance r) sm tm w = (OK tt, w')
    ∧ input_vocab (self w') = Some r ∧ output_vocab (self w') = Some r
    ∧ vocabs w' !! r = Some v
    ∧ data_is w' (map (λ pair, (indices_from_sequence v (fst pair),
                                indices_from_sequence v (snd pair))) pairs).
Proof.
  intros Hne Hr Hv0 Hv1.
  pose proof (lookup_lt_Some _ _ _ Hr) as Hrn.
  pose proof (init_vocab_instance (map fst pairs) sm v0 r w Hv0) as H1.
  match type of H1 with
  | _ = (_, ?w1) =>
      pose proof (init_vocab_instance (map snd pairs) tm v1 r
                    (set_self (with_input_vocab (Some r)) w1) Hv1) as H2
  end.
  simpl in H2.
  assert (((vocabs w ++ [v0]) ++ [v1]) !! r = Some v) as Hlk.
  { rewrite !lookup_app_l by (rewrite ?length_app; simpl; lia). done. }
  eexists. split; [exact (encode_ok _ _ _ _ _ _ _ _ _ _ v v Hne H1 H2 Hlk Hlk)|].
  simpl. repeat (split; [done|]).
  exists (length (lists w)). split; [done|]. simpl.
  by apply list_lookup_middle.
Qed.

(** X14.  [from_list] and [from_file] build a new dataset and hand the
    pairs the length filter retained to [_encode]: a call of [from_list]
    that completes leaves a dataset with the two length caps it was given,
    whose [data] is a new list object and whose length is the number of
    retained pairs, at least one; and [from_file] does what [from_list]
    does whenever the file reader returns the pairs the list filter
    returns. *)
Theorem from_list_builds_dataset (src tgt : list sequence)
    (sl tl : Z) (sv tv : vocab_arg) (sm tm : Z) w :
  (∀ w' : world V G,
     from_list src tgt sl tl sv tv sm tm w = (OK tt, w') →
     src_max_len (self w') = sl
     ∧ tgt_max_len (self w') = tl
     ∧ data (self w') = Some (length (lists w))
     ∧ __len__ w'
       = (OK (Py.len (prepare_data_from_list src tgt sl tl)),
          w')
     ∧ prepare_data_from_list src tgt sl tl ≠ [])
  ∧ (∀ path,
       prepare_data path sl tl
       = Some (prepare_data_from_list src tgt sl tl) →
       from_file path sl tl sv tv sm tm w
       = from_list src tgt sl tl sv tv sm tm w).
Proof.
  split.
  - intros w' Hrun. unfold from_list, bind, __init__, modify in Hrun.
    destruct (encode_completed _ _ _ _ _ _ _ Hrun)
      as (iv & ov & vi & vo & w1 & w2 & Hne & _ & _ & _ & _ & ->).
    simpl. repeat (split; [done|]). split; [|done].
    match goal with
    | |- __len__ ?w0 = _ =>
        assert (data_is w0 (map (encode_pair vi vo)
                  (prepare_data_from_list src tgt sl tl)))
          as Hd
    end.
    { exists (length (lists w)). split; [done|]. simpl.
      by apply list_lookup_middle. }
    unfold __len__. rewrite (len_data_is _ _ Hd). unfold Py.len.
    by rewrite length_map.
  - intros path Hp. unfold from_file, from_list, bind, __init__, modify.
    by rewrite Hp.
Qed.

Lemma trims_of_add_tokens (r r' : loc) (toks : list token) :
  trims_of r (map (EAddToken r') toks) = [].
Proof. unfold trims_of. by induction toks. Qed.

Lemma trims_of_build_other (max_size : Z) (r r' : loc) (seqs : list sequence) :
  r' ≠ r → trims_of r (build_events max_size r' seqs) = [].
Proof.
  intros Hr. apply trims_of_none. unfold build_events.
  apply Forall_cons. split; [done|]. apply Forall_app. split.
  - apply Forall_fmap, Forall_true. intros s. simpl. by apply Nat.eqb_neq.
  - apply Forall_singleton. simpl. by apply Nat.eqb_neq.
Qed.

(** X15.  With the path of a vocabulary file as source argument and
    [None] as target argument, on a non-empty list and with sizes the
    constructor accepts, [_encode] completes; the source vocabulary is the
    new object to which the tokens [read_vocabulary(path, max)] returned
    were added one by one with [add_token], in file order; it is never
    trimmed, unlike the target vocabulary, which is built from the target
    sequences and trimmed; and the source sequences of the corpus are not
    added to it. *)
Theorem encode_with_vocabulary_file pairs (path : string) (sm tm : Z)
    (v0 v1 : V) (toks : list token) w :
  pairs ≠ [] → Vocabulary sm = Some v0 → Vocabulary tm = Some v1 →
  read_vocabulary path sm = Some toks →
  let n := length (vocabs w) in
  let vi := fold_left (λ v t, add_token t v) toks v0 in
  let vo := trim (fold_left (λ v s, add_sequence s v) (map snd pairs) v1) in
  let evs := [ENew sm n; EReadVocabulary path sm]
               ++ map (EAddToken n) toks
               ++ build_events tm (S n) (map snd pairs)
               ++ flat_map (encode_events n (S n)) pairs in
  ∃ w' : world V G,
    _encode pairs (VStr path) VNone sm tm w = (OK tt, w')
    ∧ input_vocab (self w') = Some n ∧ output_vocab (self w') = Some (S n)
    ∧ vocabs w' = vocabs w ++ [vi; vo]
    ∧ data_is w' (map (encode_pair vi vo) pairs)
    ∧ log w' = log w ++ evs
    ∧ trims_of n evs = [] ∧ trims_of (S n) evs = [ETrim (S n)].
Proof.
  intros Hne Hv0 Hv1 Hread n vi vo evs.
  assert (trims_of n evs = [] ∧ trims_of (S n) evs = [ETrim (S n)]) as Htr.
  { unfold evs. split.
    - rewrite !trims_of_app, trims_of_add_tokens.
      rewrite (trims_of_build_other tm n (S n)) by lia.
      by rewrite (trims_of_none _ (flat_map _ _))
        by apply encode_events_no_mutation.
    - rewrite !trims_of_app, trims_of_add_tokens, trims_of_build.
      by rewrite (trims_of_none _ (flat_map _ _))
        by apply encode_events_no_mutation. }
  pose proof (init_vocab_str (map fst pairs) sm v0 path w Hv0) as H1.
  rewrite Hread in H1. fold n vi in H1.
  match type of H1 with
  | _ = (_, ?w1) =>
      pose proof (init_vocab_none (map snd pairs) tm v1
                    (set_self (with_input_vocab (Some n)) w1) Hv1) as H2
  end.
  simpl in H2. rewrite length_app in H2. simpl in H2.
  replace (length (vocabs w) + 1)%nat with (S n) in H2 by (unfold n; lia).
  fold n vo in H2.
  assert (((vocabs w ++ [vi]) ++ [vo]) !! n = Some vi) as Hvi.
  { rewrite lookup_app_l by (rewrite length_app; simpl; unfold n; lia).
    by apply list_lookup_middle. }
  assert (((vocabs w ++ [vi]) ++ [vo]) !! S n = Some vo) as Hvo.
  { apply list_lookup_middle. rewrite length_app. simpl. unfold n. lia. }
  eexists.
  split; [exact (encode_ok _ _ _ _ _ _ _ _ _ _ vi vo Hne H1 H2 Hvi Hvo)|].
  split; [done|]. split; [done|].
  split; [simpl; by rewrite <- app_assoc|].
  split; [exists (length (lists w)); split; [done|];
          simpl; by apply list_lookup_middle|].
  split; [|exact Htr].
  unfold evs. simpl. rewrite <- !app_assoc. simpl. by rewrite <- !app_assoc.
Qed.

End EncodeEdges.

(** * More runs on the instance *)

Section MoreRuns.
Import Model Cases.

Lemma world1_data : data_is world1 data1.
Proof. exists 0%nat. split; vm_compute; reflexivity. Defined.

Lemma shuffled10_data : data_is shuffled10 shuffled_data10.
Proof. exists 0%nat. split; vm_compute; reflexivity. Defined.

Lemma fits_3_in_10 : 1 ≤ 3 ≤ Py.len data10.
Proof. vm_compute. split; discriminate. Defined.

(** X1 on the corpus of ten pairs, in batches of three. *)
Lemma make_batches_cover_data_witness :
  data_is world10 data10 ∧ 1 ≤ 3 ≤ Py.len data10
  ∧ ∃ batches : list batch,
      Z.of_nat (length batches) = 4
      ∧ concat (map fst batches) = map fst data10
      ∧ concat (map snd batches) = map snd data10.
Proof.
  split; [exact world10_data|]. split; [exact fits_3_in_10|].
  destruct (make_batches_cover_data world10 data10 3 world10_data fits_3_in_10)
    as (batches & _ & Hn & Hs & Ht).
  exists batches. split; [exact Hn|]. split; [exact Hs|exact Ht].
Defined.

(** X2 on the corpus of ten pairs, with batch size 11. *)
Lemma num_batches_counts_refused_batch_witness :
  data_is world10 data10 ∧ 1 ≤ Py.len data10 < 11
  ∧ num_batches 11 world10 = (OK 1, world10)
  ∧ next (make_batches 11) world10
    = (Raise (OverflowError 11 10), GenDone, world10).
Proof.
  assert (1 ≤ Py.len data10 < 11) as Hb
    by (vm_compute; split; [discriminate|reflexivity]).
  split; [exact world10_data|]. split; [exact Hb|].
  destruct (num_batches_counts_refused_batch world10 data10 11 world10_data Hb)
    as (Hn & Hg & _).
  split; [exact Hn|exact Hg].
Defined.

(** X3 on the corpus of ten pairs. *)
Lemma num_batches_nonpositive_witness :
  data_is world10 data10
  ∧ num_batches 0 world10 = (Raise ValueError, world10)
  ∧ num_batches (-2) world10 = (OK 0, world10).
Proof.
  split; [exact world10_data|]. split.
  - apply (proj1 (num_batches_nonpositive world10 data10 0 world10_data)).
    reflexivity.
  - apply (proj2 (num_batches_nonpositive world10 data10 (-2) world10_data)).
    lia.
Defined.

(** X4 on the corpus of ten pairs. *)
Lemma make_batches_nonpositive_witness :
  data_is world10 data10
  ∧ next (make_batches 0) world10 = (Raise ValueError, GenDone, world10)
  ∧ next (make_batches (-2)) world10 = (Raise StopIteration, GenDone, world10).
Proof.
  split; [exact world10_data|]. split.
  - apply (proj1 (make_batches_nonpositive world10 data10 0 world10_data)).
    reflexivity.
  - apply (proj2 (make_batches_nonpositive world10 data10 (-2) world10_data)).
    lia.
Defined.

(** X6: a generator started on the ten pairs, resumed after
    [shuffle(seed=42)]. *)
Lemma generator_reads_current_data_witness :
  data_is world10 data10 ∧ 1 ≤ 3 ≤ Py.len data10
  ∧ data_is shuffled10 shuffled_data10
  ∧ ∃ g1 nb,
      next (make_batches 3) world10 = (OK (chunk 3 data10 0), g1, world10)
      ∧ iter_next (S nb) g1 shuffled10
        = (map (λ k, OK (chunk 3 shuffled_data10 k)) (seq 1 nb)
             ++ [Raise StopIteration],
           GenDone, shuffled10).
Proof.
  split; [exact world10_data|]. split; [exact fits_3_in_10|].
  split; [exact shuffled10_data|].
  destruct (generator_reads_current_data world10 shuffled10 data10
              shuffled_data10 3 world10_data fits_3_in_10 shuffled10_data)
    as (g1 & nb & Hfirst & _ & Hrest).
  exists g1, nb. split; [exact Hfirst|exact Hrest].
Defined.

(** X7 on a new dataset, with a seed. *)
Lemma shuffle_unencoded_reseeds_witness :
  data (self (empty_world 0)) = None
  ∧ fst (shuffle (Some 5) (empty_world 0)) = Raise TypeError
  ∧ rng (snd (shuffle (Some 5) (empty_world 0))) = 5.
Proof.
  split; [reflexivity|].
  rewrite (shuffle_unencoded_reseeds (empty_world 0) (Some 5) eq_refl).
  split; reflexivity.
Defined.

(** X8 on a corpus of one pair. *)
Lemma shuffle_short_list_witness :
  data_is world1 data1 ∧ (length data1 ≤ 1)%nat
  ∧ lists (snd (shuffle (Some 3) world1)) = lists world1.
Proof.
  assert (length data1 ≤ 1)%nat as Hlen by (vm_compute; lia).
  split; [exact world1_data|]. split; [exact Hlen|].
  rewrite (shuffle_short_list world1 data1 (Some 3) world1_data Hlen).
  reflexivity.
Defined.

(** X9 on the corpus of ten pairs. *)
Lemma shuffle_keeps_counts_witness :
  data_is world10 data10
  ∧ ∃ w', shuffle None world10 = (OK tt, w')
          ∧ __len__ w' = (OK 10, w').
Proof.
  split; [exact world10_data|].
  destruct (shuffle_keeps_counts world10 data10 None world10_data)
    as (w' & Hrun & Hlen & _).
  exists w'. split; [exact Hrun|exact Hlen].
Defined.

(** X11 on the corpus of ten pairs, with an integer as target
    vocabulary. *)
Lemma encode_fails_half_initialised_witness :
  raw10 ≠ []
  ∧ ∃ w',
      _encode raw10 VNone (VOther "42") 50000 50000 (empty_world 0)
      = (Raise (AttributeError "42"), w')
      ∧ input_vocab (self w') = Some 0%nat
      ∧ data (self w') = None.
Proof.
  assert (raw10 ≠ []) as Hne by discriminate.
  split; [exact Hne|].
  assert (Vocabulary 50000 = Some empty50000) as Hv
    by (vm_compute; reflexivity).
  destruct (encode_fails_half_initialised raw10 "42" 50000 50000 empty50000
              empty50000 (empty_world 0) Hne Hv Hv)
    as (w' & Hrun & Hiv & _ & _ & Hd & _).
  exists w'. split; [exact Hrun|]. split; [exact Hiv|exact Hd].
Defined.

(** X12 on the corpus of ten pairs, both arguments [None]. *)
Lemma encode_completes_iff_witness :
  (VNone = VNone
   ∨ ∃ r, VNone = VInstance r ∧ (r < length (vocabs (empty_world 0)))%nat)
  ∧ ∃ w', _encode raw10 VNone VNone 50000 50000 (empty_world 0) = (OK tt, w').
Proof.
  assert (VNone = VNone
          ∨ ∃ r, VNone = VInstance r
                 ∧ (r < length (vocabs (empty_world 0)))%nat) as Hv
    by (left; reflexivity).
  split; [exact Hv|].
  apply (proj2 (encode_completes_iff raw10 VNone VNone 50000 50000
                  (empty_world 0) Hv Hv)).
  split; [discriminate|]. split; eexists; vm_compute; reflexivity.
Defined.

(** X13: the source vocabulary of [world10] given for both sides. *)
Lemma encode_shared_vocabulary_witness :
  raw10 ≠ []
  ∧ ∃ w',
      _encode raw10 (VInstance 0) (VInstance 0) 50000 50000 world_prebuilt
      = (OK tt, w')
      ∧ input_vocab (self w') = Some 0%nat
      ∧ output_vocab (self w') = Some 0%nat.
Proof.
  assert (raw10 ≠ []) as Hne by discriminate.
  split; [exact Hne|].
  assert (vocabs world_prebuilt !! 0%nat = Some prebuilt0) as Hr
    by (vm_compute; reflexivity).
  assert (Vocabulary 50000 = Some empty50000) as Hv
    by (vm_compute; reflexivity).
  destruct (encode_shared_vocabulary raw10 0 prebuilt0 empty50000 empty50000
              50000 50000 world_prebuilt Hne Hr Hv Hv)
    as (w' & Hrun & Hiv & Hov & _).
  exists w'. split; [exact Hrun|]. split; [exact Hiv|exact Hov].
Defined.

(** X15 on the corpus of ten pairs, with the vocabulary file of
    [Cases]. *)
Lemma encode_with_vocabulary_file_witness :
  raw10 ≠ []
  ∧ ∃ w',
      _encode (H:=vocab_file_utils) raw10 (VStr "vocab.txt") VNone 50000 50000
        (empty_world 0)
      = (OK tt, w')
      ∧ input_vocab (self w') = Some 0%nat.
Proof.
  assert (raw10 ≠ []) as Hne by discriminate.
  split; [exact Hne|].
  assert (Vocabulary 50000 = Some empty50000) as Hv
    by (vm_compute; reflexivity).
  assert (read_vocabulary (UtilsAPI:=vocab_file_utils) "vocab.txt" 50000
          = Some ["s1"; "s0"; "zz"]%string) as Hread
    by (vm_compute; reflexivity).
  destruct (encode_with_vocabulary_file (H:=vocab_file_utils) raw10
              "vocab.txt" 50000 50000 empty50000 empty50000
              ["s1"; "s0"; "zz"]%string (empty_world 0) Hne Hv Hv Hread)
    as (w' & Hrun & Hiv & _).
  exists w'. split; [exact Hrun|exact Hiv].
Defined.

End MoreRuns.
